(** * node-run-cmd: a shallow embedding of [index.js]

    The module exports one function, [run] (internally [runMultiple]), which
    takes one or more shell-style command lines, spawns a child process for
    each of them, forwards the output of the children to callbacks and
    resolves a promise with the exit codes.

    The embedding follows the source function by function:
    - JavaScript values are an inductive type, objects are finite maps from
      property names to values;
    - the regular expression literal used to split a command line is
      transcribed as a backtracking matcher;
    - [run] is the body of its promise executor ([run_executor]: the verbose
      line, the tokenizing, the call of [spawn], then the installation of
      the listeners, any of which may throw and so reject the promise) and
      the four listeners it installs ([run_event]);
    - [runMultiple] builds the initial state of a batch, and the events that
      the children emit afterwards drive a step function ([step]).  A run of
      the program is the fold of [step] over a schedule, the list of child
      events in the order in which the event loop delivers them to the
      listeners.  The reactions of promises are microtasks, which run before
      the next event is delivered: the resumption of the generator of the
      sequential branch belongs to the step of the event that resolves the
      awaited promise.

    The process-spawning primitive of the host is an external collaborator:
    a call of it shows up as a [Spawn] effect in the trace of the batch, its
    answer (an exception, or a child with or without its [stdout] and
    [stderr] streams) is a parameter of the development, and the events of
    the children are the schedule.  Callbacks are opaque: a call of one is
    recorded as a [Call] effect, and it is assumed to return.  An event for
    which no listener is installed is not part of a schedule; the host ends
    the program on an [error] event without a listener, which is outside of
    the model. *)

From Stdlib Require Import ZArith Ascii String.
From stdpp Require Import gmap strings list fin_maps pretty.

Set Warnings "-register-all".

(** ** JavaScript values *)

Inductive JsVal : Type :=
| VUndefined
| VNull
| VBool (b : bool)
| VNum (n : Z)
| VStr (s : string)
| VFun (name : string)
| VError (name : string)
| VObj (props : gmap string JsVal)
| VArr (items : list JsVal).

Abbreviation Obj := (gmap string JsVal).

(** Truthiness, as tested by [if (x)] and [x && y]. *)
Definition js_truthy (v : JsVal) : bool :=
  match v with
  | VUndefined | VNull => false
  | VBool b => b
  | VNum n => negb (n =? 0)%Z
  | VStr s => negb (String.eqb s EmptyString)
  | VFun _ | VError _ | VObj _ | VArr _ => true
  end.

Inductive JsType :=
| TUndefined | TObject | TBoolean | TNumber | TString | TFunction.

(** The [typeof] operator: [null], arrays and errors are objects. *)
Definition js_typeof (v : JsVal) : JsType :=
  match v with
  | VUndefined => TUndefined
  | VNull => TObject
  | VBool _ => TBoolean
  | VNum _ => TNumber
  | VStr _ => TString
  | VFun _ => TFunction
  | VError _ | VObj _ | VArr _ => TObject
  end.

Definition is_function (v : JsVal) : bool :=
  match js_typeof v with TFunction => true | _ => false end.

Definition is_object (v : JsVal) : bool :=
  match js_typeof v with TObject => true | _ => false end.

Definition is_string (v : JsVal) : bool :=
  match js_typeof v with TString => true | _ => false end.

(** [Object.prototype.toString.call(v) === '[object Array]'] *)
Definition is_array (v : JsVal) : bool :=
  match v with VArr _ => true | _ => false end.

(** Own enumerable properties, as [Object.assign] and [for ... in] see them:
    an array has its indices, a string its characters, a primitive, a
    function or an error none. *)
Definition indexed {A} (f : A → JsVal) (l : list A) : Obj :=
  list_to_map (imap (λ i x, (pretty i, f x)) l).

Definition own_props (v : JsVal) : Obj :=
  match v with
  | VObj m => m
  | VArr l => indexed id l
  | VStr s => indexed (λ c, VStr (String c EmptyString)) (list_ascii_of_string s)
  | _ => ∅
  end.

(** [Object.assign(target, ...sources)]: later sources win. *)
Definition object_assign (target : Obj) (sources : list JsVal) : Obj :=
  foldl (λ acc src, own_props src ∪ acc) target sources.

(** Property read [o.k]; an absent property reads as [undefined]. *)
Definition get (o : Obj) (k : string) : JsVal := default VUndefined (o !! k).

(** ** The regular expression of the tokenizer

    Writing Q for the double quote character, the pattern of the source is
    [/[^Q\s]+|Q(?:\\Q|[^Q])+Q/g].  Command lines are lists of code units;
    the model covers the code units below 256, where the class [\s] holds
    tab, line feed, vertical tab, form feed, carriage return, space and
    no-break space. *)

Definition dquote : ascii := ascii_of_nat 34.
Definition backslash : ascii := ascii_of_nat 92.

Definition is_dquote (c : ascii) : bool := Ascii.eqb c dquote.
Definition is_backslash (c : ascii) : bool := Ascii.eqb c backslash.
Definition is_space (c : ascii) : bool :=
  existsb (Nat.eqb (nat_of_ascii c)) [9; 10; 11; 12; 13; 32; 160].

(** The class [[^Q\s]]. *)
Definition is_plain (c : ascii) : bool := negb (is_dquote c) && negb (is_space c).

(** First alternative, [[^Q\s]+], is greedy and nothing follows it: it takes
    the longest run of plain characters.  [plain_run s] is that run and the
    text after it. *)
Fixpoint plain_run (s : list ascii) : list ascii * list ascii :=
  match s with
  | c :: t =>
      if is_plain c then let '(tok, rest) := plain_run t in (c :: tok, rest)
      else ([], s)
  | [] => ([], [])
  end.

Definition consume (pre : list ascii) (r : option (list ascii * list ascii))
  : option (list ascii * list ascii) :=
  match r with
  | Some (m, rest) => Some (pre ++ m, rest)
  | None => None
  end.

(** Second alternative after its opening quote: [(?:\\Q|[^Q])+Q].  The
    matcher backtracks in the order of the engine: one more turn of the group
    with its first branch [\\Q], then with its second branch [[^Q]], and only
    when both fail the closing quote; [turned] tells whether the group has
    matched at least once, which [+] demands. *)
Fixpoint quoted_tail (turned : bool) (s : list ascii)
  : option (list ascii * list ascii) :=
  match s with
  | [] => None
  | c :: t =>
      let escaped :=
        match t with
        | q :: t' =>
            if is_backslash c && is_dquote q
            then consume [c; q] (quoted_tail true t')
            else None
        | [] => None
        end in
      match escaped with
      | Some r => Some r
      | None =>
          let other :=
            if is_dquote c then None else consume [c] (quoted_tail true t) in
          match other with
          | Some r => Some r
          | None => if turned && is_dquote c then Some ([c], t) else None
          end
      end
  end.

(** One attempt of the whole pattern at the start of [s]: the matched text
    and the text after it. *)
Definition match_here (s : list ascii) : option (list ascii * list ascii) :=
  match plain_run s with
  | (c :: tok, rest) => Some (c :: tok, rest)
  | ([], _) =>
      match s with
      | c :: t => if is_dquote c then consume [c] (quoted_tail false t) else None
      | [] => None
      end
  end.

(** The global scan of [String.prototype.match]: try the pattern at the
    current index; after a match resume behind it, after a failure one code
    unit further.  [skip] counts the code units of the last match that are
    still to be stepped over. *)
Fixpoint scan (skip : nat) (s : list ascii) : list (list ascii) :=
  match s with
  | [] => []
  | _ :: t =>
      match skip with
      | S k => scan k t
      | O =>
          match match_here s with
          | Some (tok, _) => tok :: scan (List.length tok - 1) t
          | None => scan 0 t
          end
      end
  end.

(** [str.match(re)] with the [g] flag: all matches, or [null] when there is
    none. *)
Definition js_match (s : list ascii) : option (list (list ascii)) :=
  match scan 0 s with
  | [] => None
  | toks => Some toks
  end.

(** [expr.charAt(0) === Q && expr.charAt(expr.length - 1) === Q
     ? expr.slice(1, -1) : expr] *)
Definition strip_quotes (expr : list ascii) : list ascii :=
  match expr with
  | c :: t =>
      if is_dquote c && is_dquote (List.last expr c) then removelast t else expr
  | [] => expr
  end.

(** [options.command.match(...).map(...)], then [cmds[0]] and the shifted
    [cmds]: the executable and its arguments.  [None] stands for the
    [TypeError] of calling [map] on [null]. *)
Definition tokenize (command : string) : option (string * list string) :=
  match js_match (list_ascii_of_string command) with
  | Some (runCMD :: cmds) =>
      Some (string_of_list_ascii (strip_quotes runCMD),
            map (λ e, string_of_list_ascii (strip_quotes e)) cmds)
  | _ => None
  end.

(** ** The shape of tokens

    The vocabulary in which the tokenizer is specified: runs of plain
    characters, quoted spans, and the segmentation of a command line into
    tokens and the text between them. *)

(** The text between the quotes of a span: one or more items, each either a
    character that is not a quote, or a backslash followed by a quote. *)
Inductive quoted_body : list ascii → Prop :=
| qb_char c :
    is_dquote c = false → quoted_body [c]
| qb_escaped :
    quoted_body [backslash; dquote]
| qb_char_more c body :
    is_dquote c = false → quoted_body body → quoted_body (c :: body)
| qb_escaped_more body :
    quoted_body body → quoted_body (backslash :: dquote :: body).

Definition is_quoted_span (tok : list ascii) : Prop :=
  ∃ body, tok = dquote :: body ++ [dquote] ∧ quoted_body body.

Definition is_run (tok : list ascii) : Prop :=
  tok ≠ [] ∧ Forall (λ c, is_plain c = true) tok.

(** A text that does not begin, or does not end, with a plain character: a
    run next to it cannot be extended into it. *)
Definition delimiter_first (s : list ascii) : Prop :=
  match s with
  | [] => True
  | c :: _ => is_plain c = false
  end.

Definition delimiter_last (s : list ascii) : Prop :=
  match last s with
  | None => True
  | Some c => is_plain c = false
  end.

(** [Lexes s toks]: the text [s] is the tokens [toks], in this order,
    separated by characters that are not plain: white space, and quotes at
    which no quoted span starts.  A run token extends as far to the right as
    it can, and a quoted token is the longest span that starts at its
    opening quote. *)
Inductive Lexes : list ascii → list (list ascii) → Prop :=
| lex_end :
    Lexes [] []
| lex_gap c s toks :
    is_plain c = false →
    (∀ tok rest, is_quoted_span tok → c :: s ≠ tok ++ rest) →
    Lexes s toks → Lexes (c :: s) toks
| lex_run tok rest toks :
    is_run tok → delimiter_first rest → Lexes rest toks →
    Lexes (tok ++ rest) (tok :: toks)
| lex_quoted tok rest toks :
    is_quoted_span tok →
    (∀ tok' rest', is_quoted_span tok' → tok ++ rest = tok' ++ rest' →
                   List.length tok' ≤ List.length tok) →
    Lexes rest toks →
    Lexes (tok ++ rest) (tok :: toks).

(** The text of a token, as it is handed on: a run as it is, a quoted span
    without its two quotes. *)
Inductive token_text : list ascii → string → Prop :=
| text_run tok :
    is_run tok → token_text tok (string_of_list_ascii tok)
| text_span body :
    quoted_body body →
    token_text (dquote :: body ++ [dquote]) (string_of_list_ascii body).

(** The words of a text, as a reader splits it at white space: [cur] is the
    word being read. *)
Fixpoint words_from (cur s : list ascii) : list (list ascii) :=
  match s with
  | [] => match cur with [] => [] | _ => [cur] end
  | c :: t =>
      if is_space c
      then match cur with
           | [] => words_from [] t
           | _ => cur :: words_from [] t
           end
      else words_from (cur ++ [c]) t
  end.

Definition words (s : list ascii) : list (list ascii) := words_from [] s.

(** ** Writing command lines

    How a caller puts a list of arguments into one command line: an argument
    made of plain characters only is written as it is, any other between
    double quotes; the arguments are separated by one space. *)

Definition space : ascii := ascii_of_nat 32.

Definition quote_arg (a : list ascii) : list ascii := dquote :: a ++ [dquote].

Definition render_arg (a : list ascii) : list ascii :=
  if forallb is_plain a then a else quote_arg a.

Definition command_line (file : list ascii) (args : list (list ascii))
  : list ascii :=
  file ++ concat (map (λ a, space :: render_arg a) args).

(** An argument that survives the trip: it is not empty, holds no double
    quote and does not end with a backslash. *)
Definition passable (a : list ascii) : Prop :=
  a ≠ [] ∧ Forall (λ c, is_dquote c = false) a ∧ last a ≠ Some backslash.

(** ** Effects, exceptions and promises *)

(** What the program does to the outside world: it calls a function value it
    was handed (a callback or the logger), or it calls the [spawn] of the
    host, which starts a process unless it throws. *)
Inductive Effect : Type :=
| Call (f : JsVal) (args : list JsVal)
| Spawn (file : string) (args : list string) (options : Obj).

(** A synchronous piece of code either completes or throws; the effects it
    performed before are kept in both cases. *)
Inductive Completion (A : Type) : Type :=
| Normal (a : A)
| Throw (e : JsVal).
Arguments Normal {A} a.
Arguments Throw {A} e.

Definition Exec (A : Type) : Type := list Effect * Completion A.

Definition ret {A} (a : A) : Exec A := ([], Normal a).
Definition throw {A} (e : JsVal) : Exec A := ([], Throw e).
Definition emit (e : Effect) : Exec unit := ([e], Normal tt).
Definition bind {A B} (m : Exec A) (k : A → Exec B) : Exec B :=
  match m with
  | (l, Normal a) => let '(l', r) := k a in (l ++ l', r)
  | (l, Throw e) => (l, Throw e)
  end.

Infix ">>-" := bind (at level 61, left associativity).

Inductive Promise : Type :=
| Pending
| Fulfilled (v : JsVal)
| Rejected (e : JsVal).

(** [resolve(v)] on a promise: only a pending promise changes. *)
Definition settle (p : Promise) (v : JsVal) : Promise :=
  match p with
  | Pending => Fulfilled v
  | _ => p
  end.

(** [reject(e)] likewise. *)
Definition reject (p : Promise) (e : JsVal) : Promise :=
  match p with
  | Pending => Rejected e
  | _ => p
  end.

(** The error the engine raises for [null.map], [undefined.match] or a call
    of something that is not a function. *)
Definition TypeError : JsVal := VError "TypeError".

(** A call [f(args)] of a value taken from the options. *)
Definition js_call (f : JsVal) (args : list JsVal) : Exec unit :=
  if is_function f then emit (Call f args) else throw TypeError.

(** ** Constants of the module *)

Definition SEQUENTIAL : string := "sequential".
Definition PARALLEL : string := "parallel".
Definition DEFAULT_VERBOSE : bool := false.

Definition spawnOptsAllowedKeys : list string :=
  ["cwd"; "env"; "stdio"; "detached"; "uid"; "gid"; "shell"].

(** What a child process can report: a chunk on one of its two streams (a
    Buffer, given by its text), its closure with an exit code, or an error. *)
Inductive ChildEvent : Type :=
| StdoutData (data : string)
| StderrData (data : string)
| Close (code : JsVal)
| Error (err : JsVal).

(** What the host's [spawn] does with a call: it throws an error, or it
    returns a child whose [stdout] and [stderr] are streams ([true]) or
    [null] ([false]), as the stdio configuration it was given demands. *)
Inductive Spawned : Type :=
| SpawnThrows (name : string)
| Child (stdout stderr : bool).

(** The listeners a call of [run] has installed by the time its executor
    ends: none, the [data] listener of [child.stdout] alone, or the two
    [data] listeners together with the [close] and the [error] listener. *)
Inductive Listeners : Type :=
| NoListeners
| StdoutListener
| AllListeners.

(** Whether an event of the child finds a listener. *)
Definition delivered (ls : Listeners) (ev : ChildEvent) : bool :=
  match ls, ev with
  | AllListeners, _ => true
  | StdoutListener, StdoutData _ => true
  | _, _ => false
  end.

Inductive Mode : Type := Sequential | Parallel.

(** One call of [run]: the options it was given and the promise it
    returned. *)
Record Proc : Type := MkProc { p_options : Obj; p_promise : Promise }.

(** The state of one call of [runMultiple]. *)
Record Batch : Type := MkBatch {
  b_mode : Mode;
  b_globalOpts : Obj;
  b_procs : list Proc;        (* the calls of [run] made so far, in order *)
  b_queue : list JsVal;       (* commands the generator has not reached yet *)
  b_results : list JsVal;     (* the [results] array of the generator *)
  b_outcome : Promise;        (* the promise returned to the caller *)
  b_trace : list Effect       (* everything done so far, oldest first *)
}.

(** ** Sample data for the examples *)

(** A host: its working directory and its rendering of values that are not
    strings. *)
Definition sample_cwd : string := "/home/user".
Definition sample_to_string (v : JsVal) : string := "[object Object]".

(** Its [spawn], in the manner of Node.  A working directory that is given
    and is not a string makes the call throw a [TypeError], and so does a
    stdio configuration that is not understood.  The child has the stream
    of a position when the configuration says [pipe] (or [overlapped]) for
    it, or says nothing, be it as a whole or, in an array, at that
    position; it does not with [ignore], [inherit] or a file descriptor. *)
Definition stdio_word (s : string) : option bool :=
  if String.eqb s "pipe" || String.eqb s "overlapped" then Some true
  else if String.eqb s "ignore" || String.eqb s "inherit" then Some false
  else None.

Definition stdio_slot (v : option JsVal) : option bool :=
  match v with
  | None | Some VUndefined | Some VNull => Some true
  | Some (VStr s) => stdio_word s
  | Some _ => Some false
  end.

Definition stdio_streams (v : option JsVal) : option (bool * bool) :=
  match v with
  | None | Some VUndefined | Some VNull => Some (true, true)
  | Some (VStr s) => (λ b, (b, b)) <$> stdio_word s
  | Some (VArr items) =>
      match stdio_slot (items !! 1), stdio_slot (items !! 2) with
      | Some out, Some err => Some (out, err)
      | _, _ => None
      end
  | Some _ => None
  end.

Definition sample_spawn (file : string) (args : list string) (opts : Obj)
  : Spawned :=
  match opts !! "cwd" with
  | None | Some VUndefined | Some (VStr _) =>
      match stdio_streams (opts !! "stdio") with
      | Some (out, err) => Child out err
      | None => SpawnThrows "TypeError"
      end
  | Some _ => SpawnThrows "TypeError"
  end.

(** The same host for a caller that may not change its user identity: the
    system refuses the spawn, and the call throws the system error. *)
Definition unprivileged_spawn (file : string) (args : list string) (opts : Obj)
  : Spawned :=
  match opts !! "uid" with
  | Some (VNum _) => SpawnThrows "Error"
  | _ => sample_spawn file args opts
  end.

(** The command line made of [echo], a space and the text [a b] between
    double quotes. *)
Definition echo_quoted : string :=
  "echo " +:+ String dquote "a b" +:+ String dquote EmptyString.

(** [['ls -la', { command: 'false' }]] *)
Definition two_commands : JsVal :=
  VArr [VStr "ls -la"; VObj {[ "command" := VStr "false" ]}].

(** [[{ command: 'ls', cwd: '/var' }, 'ls']] with the global options
    [{ cwd: '/tmp', mode: 'parallel' }] *)
Definition var_and_default : JsVal :=
  VArr [VObj {[ "command" := VStr "ls"; "cwd" := VStr "/var" ]}; VStr "ls"].
Definition tmp_parallel : JsVal :=
  VObj {[ "cwd" := VStr "/tmp"; "mode" := VStr "parallel" ]}.

(** [{ command: 'ls -la', verbose: true, logger: log, onData: out }] *)
Definition verbose_ls : Obj :=
  {[ "command" := VStr "ls -la"; "verbose" := VBool true;
     "logger" := VFun "log"; "onData" := VFun "out" ]}.

(** The two commands of the test suite, a slow script that prints 1 and an
    echo that prints 2, both with the same [onData] callback. *)
Definition slow_then_fast : JsVal :=
  VArr [VObj {[ "command" := VStr "./test/slowScript.sh"; "onData" := VFun "push" ]};
        VObj {[ "command" := VStr "echo 2"; "onData" := VFun "push" ]}].

(** The calls of callbacks in a trace, in order. *)
Definition calls (l : list Effect) : list Effect :=
  List.filter (λ e, match e with Call _ _ => true | Spawn _ _ _ => false end) l.

(** [{ command: 'ls', stdio: ['pipe', 'pipe', 'ignore'], onData: out }] *)
Definition no_stderr : Obj :=
  {[ "command" := VStr "ls"; "onData" := VFun "out";
     "stdio" := VArr [VStr "pipe"; VStr "pipe"; VStr "ignore"] ]}.

Section Host.

(** What the host provides: [process.cwd()], the conversion of a value that
    is not a string to a string (number formatting, [toString] of objects
    and functions), and [child_process.spawn]. *)
Variable process_cwd : string.
Variable host_to_string : JsVal → string.
Variable host_spawn : string → list string → Obj → Spawned.

Definition js_to_string (v : JsVal) : string :=
  match v with
  | VStr s => s
  | _ => host_to_string v
  end.

(** ** [run] *)

(** The [for (const key in options)] loop that fills [spawnProcessOpts]. *)
Definition spawnProcessOpts (options : Obj) : Obj :=
  filter (λ kv, kv.1 ∈ spawnOptsAllowedKeys) options.

(** [options.command.match(...).map(...)]: in the model only strings have a
    [match] method. *)
Definition split_command (command : JsVal) : Exec (string * list string) :=
  match command with
  | VStr s =>
      match tokenize s with
      | Some r => ret r
      | None => throw TypeError
      end
  | _ => throw TypeError
  end.

(** [spawn(runCMD, cmds, spawnProcessOpts)]: the call is recorded, then the
    host throws or hands back a child. *)
Definition js_spawn (file : string) (args : list string) (opts : Obj)
  : Exec (bool * bool) :=
  emit (Spawn file args opts) >>- λ _,
  match host_spawn file args opts with
  | SpawnThrows name => throw (VError name)
  | Child out err => ret (out, err)
  end.

(** The body of the promise executor of [run], up to the call of [spawn]:
    the child's two streams, or the exception. *)
Definition spawn_child (options : Obj) : Exec (bool * bool) :=
  (if js_truthy (get options "verbose")
   then js_call (get options "logger")
          [VStr ("$ " +:+ js_to_string (get options "command"))]
   else ret tt) >>- λ _,
  split_command (get options "command") >>- λ '(runCMD, cmds),
  js_spawn runCMD cmds (spawnProcessOpts options).

(** The rest of the executor: [child.stdout.on('data', ...)],
    [child.stderr.on('data', ...)], [child.on('close', ...)] and
    [child.on('error', ...)], in this order.  Reading [on] from a stream
    that is [null] throws a [TypeError]; the listeners installed before
    stay. *)
Definition install_listeners (child : bool * bool)
  : Listeners * Completion unit :=
  match child with
  | (false, _) => (NoListeners, Throw TypeError)
  | (true, false) => (StdoutListener, Throw TypeError)
  | (true, true) => (AllListeners, Normal tt)
  end.

(** The whole promise executor of [run]: its effects, the listeners it has
    installed, and how it ended. *)
Definition run_executor (options : Obj)
  : list Effect * (Listeners * Completion unit) :=
  match spawn_child options with
  | (l, Normal child) => (l, install_listeners child)
  | (l, Throw e) => (l, (NoListeners, Throw e))
  end.

(** [run(options)]: the effects of the executor and the promise returned.  An
    exception in the executor rejects the promise; otherwise the promise is
    pending until a listener resolves it. *)
Definition run (options : Obj) : list Effect * Promise :=
  match run_executor options with
  | (l, (_, Normal _)) => (l, Pending)
  | (l, (_, Throw e)) => (l, Rejected e)
  end.

(** The listeners that [run(options)] leaves on its child. *)
Definition listeners (options : Obj) : Listeners := (run_executor options).2.1.

(** The two [data] listeners.  The chunk is a Buffer, an object, so the test
    [if (data)] succeeds.  The logger is called as it is: the executor has
    called it before, when [verbose] is set. *)
Definition on_data (callback : string) (options : Obj) (data : string)
  : list Effect :=
  (if js_truthy (get options "verbose")
   then [Call (get options "logger") [VStr data]] else [])
  ++ (if is_function (get options callback)
      then [Call (get options callback) [VStr data]] else []).

(** The [close] and [error] listeners. *)
Definition on_done (options : Obj) (args : list JsVal) : list Effect :=
  if is_function (get options "onDone")
  then [Call (get options "onDone") args] else [].

(** A child event reaches the listeners of its [run]: the effects and the
    promise afterwards. *)
Definition run_event (options : Obj) (p : Promise) (ev : ChildEvent)
  : list Effect * Promise :=
  match ev with
  | StdoutData data => (on_data "onData" options data, p)
  | StderrData data => (on_data "onError" options data, p)
  | Close code => (on_done options [code], settle p code)
  | Error err => (on_done options [err; VBool true], settle p err)
  end.

(** ** [runMultiple] *)

Definition defaultOpts : Obj :=
  {[ "cwd" := VStr process_cwd;
     "verbose" := VBool DEFAULT_VERBOSE;
     "mode" := VStr SEQUENTIAL;
     "logger" := VFun "console.log" ]}.

(** [Object.assign({}, defaultOpts, options)] *)
Definition globalOpts (options : JsVal) : Obj :=
  object_assign ∅ [VObj defaultOpts; options].

(** [Object.assign({}, globalOpts, cmd)] *)
Definition resolvedOpts (gopts : Obj) (cmd : JsVal) : Obj :=
  object_assign ∅ [VObj gopts; cmd].

(** [globalOpts.mode === PARALLEL] *)
Definition select_mode (gopts : Obj) : Mode :=
  match get gopts "mode" with
  | VStr s => if String.eqb s PARALLEL then Parallel else Sequential
  | _ => Sequential
  end.

(** The normalisation of the first argument: a string is wrapped, an object
    that is not an array becomes a one-element array, the elements of an
    array that are not objects are wrapped.  [None] is the branch that
    rejects with ['Invalid input']. *)
Definition wrap (cmd : JsVal) : JsVal := VObj {[ "command" := cmd ]}.

Definition normalize (input : JsVal) : option (list JsVal) :=
  let commands := if is_string input then VArr [wrap input] else input in
  if js_truthy commands && is_object commands then
    match commands with
    | VArr items => Some (map (λ cmd, if is_object cmd then cmd else wrap cmd) items)
    | _ => Some [commands]
    end
  else None.

(** [run(Object.assign({}, globalOpts, cmd))] *)
Definition launch (gopts : Obj) (cmd : JsVal) : list Effect * Proc :=
  let options := resolvedOpts gopts cmd in
  let '(l, p) := run options in
  (l, MkProc options p).

(** [Promise.all] over the promises of the calls of [run].  Such a promise is
    rejected by its executor or never, so the rejection that settles the
    aggregate is the one of least index. *)
Definition first_rejection (ps : list Promise) : option JsVal :=
  head (omap (λ p, match p with Rejected e => Some e | _ => None end) ps).

Definition all_values (ps : list Promise) : option (list JsVal) :=
  mapM (λ p, match p with Fulfilled v => Some v | _ => None end) ps.

Definition promise_all (ps : list Promise) : Promise :=
  match first_rejection ps with
  | Some e => Rejected e
  | None =>
      match all_values ps with
      | Some vs => Fulfilled (VArr vs)
      | None => Pending
      end
  end.

(** Parallel branch: [commands.map(cmd => run(...))], then [Promise.all]. *)
Definition par_start (gopts : Obj) (commands : list JsVal) : Batch :=
  let launched := map (launch gopts) commands in
  let ps := map snd launched in
  MkBatch Parallel gopts ps [] [] (promise_all (map p_promise ps))
          (concat (map fst launched)).

(** Sequential branch: the generator, driven by [async] and its [handle],
    runs from its start, or from the [yield] it was suspended at, to the next
    [yield] or to its end.  A rejected promise is thrown back into the
    generator, whose [catch] rejects the batch. *)
Definition seq_resume (b : Batch) : Batch :=
  match b_queue b with
  | [] =>
      MkBatch (b_mode b) (b_globalOpts b) (b_procs b) [] (b_results b)
              (if js_truthy (VArr (b_results b))
               then settle (b_outcome b) (VArr (b_results b))
               else Rejected (VStr "Falsy value in results"))
              (b_trace b)
  | cmd :: rest =>
      let '(l, pr) := launch (b_globalOpts b) cmd in
      MkBatch (b_mode b) (b_globalOpts b) (b_procs b ++ [pr]) rest (b_results b)
              (match p_promise pr with
               | Rejected e => reject (b_outcome b) e
               | _ => b_outcome b
               end)
              (b_trace b ++ l)
  end.

Definition seq_start (gopts : Obj) (commands : list JsVal) : Batch :=
  seq_resume (MkBatch Sequential gopts [] commands [] Pending []).

(** The state right after the call [runMultiple(input, options)] returns. *)
Definition runMultiple (input options : JsVal) : Batch :=
  let gopts := globalOpts options in
  match normalize input with
  | Some commands =>
      match select_mode gopts with
      | Parallel => par_start gopts commands
      | Sequential => seq_start gopts commands
      end
  | None =>
      MkBatch (select_mode gopts) gopts [] [] []
              (reject Pending (VStr "Invalid input")) []
  end.

(** ** Child events *)

(** A listener of the [i]-th call of [run] receives the event [ev] of its
    child.  This cannot happen when the call has not been made, or when it
    has installed no listener for the event: its executor threw before it
    reached [child.stdout.on], or between the two [data] listeners, in which
    case the chunks of [stdout] alone are received.  Otherwise the listener
    runs; in sequential mode the generator, suspended on that promise,
    resumes when the promise gets fulfilled; in parallel mode the aggregate
    promise is looked at again. *)
Definition step (b : Batch) (e : nat * ChildEvent) : option Batch :=
  let '(i, ev) := e in
  match b_procs b !! i with
  | None => None
  | Some (MkProc options p) =>
      if delivered (listeners options) ev then
        let '(l, p') := run_event options p ev in
        let procs := <[i := MkProc options p']> (b_procs b) in
        let trace := b_trace b ++ l in
        match b_mode b with
        | Parallel =>
            Some (MkBatch Parallel (b_globalOpts b) procs (b_queue b) (b_results b)
                          (promise_all (map p_promise procs)) trace)
        | Sequential =>
            match p, p' with
            | Pending, Fulfilled v =>
                Some (seq_resume
                        (MkBatch Sequential (b_globalOpts b) procs (b_queue b)
                                 (b_results b ++ [v]) (b_outcome b) trace))
            | _, _ =>
                Some (MkBatch Sequential (b_globalOpts b) procs (b_queue b)
                              (b_results b) (b_outcome b) trace)
            end
        end
      else None
  end.

(** A schedule is the list of child events in the order of their delivery. *)
Fixpoint exec (b : Batch) (sched : list (nat * ChildEvent)) : option Batch :=
  match sched with
  | [] => Some b
  | e :: rest =>
      match step b e with
      | Some b' => exec b' rest
      | None => None
      end
  end.

(** The payload of a [close] or [error] event. *)
Definition completion (ev : ChildEvent) : option JsVal :=
  match ev with
  | Close code => Some code
  | Error err => Some err
  | StdoutData _ | StderrData _ => None
  end.

(** The payload of the first [close] or [error] event of child [i] in a
    schedule. *)
Definition completion_of (i : nat) (e : nat * ChildEvent) : option JsVal :=
  if decide (e.1 = i) then completion e.2 else None.

Definition first_completion (i : nat) (sched : list (nat * ChildEvent))
  : option JsVal :=
  head (omap (completion_of i) sched).

(** The listeners of one [run] fed with the events of its child, one after
    the other. *)
Fixpoint listen (options : Obj) (p : Promise) (evs : list ChildEvent)
  : list Effect * Promise :=
  match evs with
  | [] => ([], p)
  | ev :: rest =>
      let '(l, p') := run_event options p ev in
      let '(l', p'') := listen options p' rest in
      (l ++ l', p'')
  end.


(** ** Vocabulary of the batch properties *)

Definition is_spawn (e : Effect) : bool :=
  match e with
  | Spawn _ _ _ => true
  | Call _ _ => false
  end.

(** The calls of [spawn] in a trace, in order. *)
Definition spawns (l : list Effect) : list Effect := List.filter is_spawn l.

(** The promise of a call of [run], given the promise [p0] it had when [run]
    returned and the completion [c] its child has reported since. *)
Definition promise_after (p0 : Promise) (c : option JsVal) : Promise :=
  match p0, c with
  | Pending, Some v => Fulfilled v
  | _, _ => p0
  end.

(** The [i]-th call of [run] as it stands after a schedule. *)
Definition proc_at (gopts : Obj) (sched : list (nat * ChildEvent))
    (i : nat) (cmd : JsVal) : Proc :=
  let options := resolvedOpts gopts cmd in
  MkProc options (promise_after (run options).2 (first_completion i sched)).

(** Resolved options on which the executor of [run] reaches its call of
    [spawn]: the command is a string that yields at least one token, and the
    logger is a function when [verbose] is set. *)
Definition well_formed (options : Obj) : Prop :=
  (js_truthy (get options "verbose") = true →
   is_function (get options "logger") = true)
  ∧ ∃ s file args, get options "command" = VStr s ∧ tokenize s = Some (file, args).

(** Resolved options on which [run] sets its child up and leaves its promise
    pending: the executor reaches [spawn], and the host hands back a child
    with both streams. *)
Definition listening (options : Obj) : Prop :=
  (js_truthy (get options "verbose") = true →
   is_function (get options "logger") = true)
  ∧ ∃ s file args,
      get options "command" = VStr s ∧ tokenize s = Some (file, args)
      ∧ host_spawn file args (spawnProcessOpts options) = Child true true.

(** The verbose line of the executor. *)
Definition logged (options : Obj) : list Effect :=
  if js_truthy (get options "verbose")
  then [Call (get options "logger")
             [VStr ("$ " +:+ js_to_string (get options "command"))]]
  else [].

(** The promise that [run] returns and the listeners it leaves, by what
    the host answered to [spawn]. *)
Definition promise_of (r : Spawned) : Promise :=
  match r with
  | SpawnThrows name => Rejected (VError name)
  | Child true true => Pending
  | Child _ _ => Rejected TypeError
  end.

Definition listeners_of (r : Spawned) : Listeners :=
  match r with
  | SpawnThrows _ | Child false _ => NoListeners
  | Child true false => StdoutListener
  | Child true true => AllListeners
  end.

(** One call of [run] followed by the events of its child, one after the
    other; [None] when one of them finds no listener. *)
Definition run_then (options : Obj) (evs : list ChildEvent)
  : option (list Effect * Promise) :=
  if forallb (delivered (listeners options)) evs then
    let '(l, p) := run options in
    let '(l', p') := listen options p evs in
    Some (l ++ l', p')
  else None.

(** The calls of [spawn] made by the runs of a list of commands. *)
Definition spawned (gopts : Obj) (commands : list JsVal) : list Effect :=
  concat (map (λ cmd, spawns (run (resolvedOpts gopts cmd)).1) commands).

(** Invariants of a batch after a schedule.  The calls of [run] made so far
    are those of a prefix of the commands, in order, each in the state the
    events of its child have brought it to. *)
Definition dispatched (gopts : Obj) (commands : list JsVal)
    (sched : list (nat * ChildEvent)) (b : Batch) : Prop :=
  b_globalOpts b = gopts
  ∧ length (b_procs b) ≤ length commands
  ∧ b_procs b = imap (proc_at gopts sched) (take (length (b_procs b)) commands)
  ∧ spawns (b_trace b) = spawned gopts (take (length (b_procs b)) commands).

Definition par_inv (gopts : Obj) (commands : list JsVal)
    (sched : list (nat * ChildEvent)) (b : Batch) : Prop :=
  b_mode b = Parallel
  ∧ dispatched gopts commands sched b
  ∧ length (b_procs b) = length commands
  ∧ b_outcome b = promise_all (map p_promise (b_procs b)).

Definition seq_inv (gopts : Obj) (commands : list JsVal)
    (sched : list (nat * ChildEvent)) (b : Batch) : Prop :=
  b_mode b = Sequential
  ∧ dispatched gopts commands sched b
  ∧ b_queue b = drop (length (b_procs b)) commands
  ∧ length (b_procs b) = S (length (b_results b)) `min` length commands
  ∧ map Fulfilled (b_results b)
      = map p_promise (take (length (b_results b)) (b_procs b))
  ∧ (∀ i, length (b_results b) ≤ i → first_completion i sched = None)
  ∧ b_outcome b =
      if decide (length (b_results b) = length commands)
      then Fulfilled (VArr (b_results b))
      else match b_procs b !! length (b_results b) with
           | Some (MkProc _ (Rejected e)) => Rejected e
           | _ => Pending
           end.

(** ** Vocabulary of the further properties *)

(** What may be found in the trace of a batch on account of one command with
    resolved options [o]: the spawn of its tokenized command line with the
    allow-listed options, a call of its logger when it is verbose, or a call
    of one of its three callbacks when that is a function. *)
Definition effect_from (o : Obj) (e : Effect) : Prop :=
  match e with
  | Spawn file args so =>
      ∃ s, get o "command" = VStr s ∧ tokenize s = Some (file, args)
           ∧ so = spawnProcessOpts o
  | Call f _ =>
      (js_truthy (get o "verbose") = true ∧ f = get o "logger")
      ∨ (is_function f = true
         ∧ f ∈ [get o "onData"; get o "onError"; get o "onDone"])
  end.

(** Resolved options with which a command runs silently. *)
Definition quiet (o : Obj) : Prop :=
  js_truthy (get o "verbose") = false
  ∧ is_function (get o "onData") = false
  ∧ is_function (get o "onError") = false
  ∧ is_function (get o "onDone") = false.

(** The effects of the listeners for one event of a schedule. *)
Definition event_effects (gopts : Obj) (commands : list JsVal)
    (e : nat * ChildEvent) : list Effect :=
  match commands !! e.1 with
  | Some cmd => (run_event (resolvedOpts gopts cmd) Pending e.2).1
  | None => []
  end.

(** A command together with what its child does: the chunks it writes, then
    the event that ends it. *)
Record Job : Type := MkJob {
  j_cmd : JsVal;
  j_output : list ChildEvent;
  j_end : ChildEvent
}.

Definition job_events (j : Job) : list ChildEvent := j_output j ++ [j_end j].

Definition job_payload (j : Job) : JsVal :=
  default VUndefined (completion (j_end j)).

Definition valid_job (gopts : Obj) (j : Job) : Prop :=
  listening (resolvedOpts gopts (j_cmd j))
  ∧ Forall (λ ev, completion ev = None) (j_output j)
  ∧ is_Some (completion (j_end j)).

(** The schedule in which the children run in turn, the first of them being
    child [n]: all the events of one before any event of the next. *)
Definition in_turn (n : nat) (jobs : list Job) : list (nat * ChildEvent) :=
  concat (imap (λ k j, map (pair (n + k)) (job_events j)) jobs).

(** What one command does when it runs alone: the effects of [run], then
    those of its listeners. *)
Definition job_trace (gopts : Obj) (j : Job) : list Effect :=
  (run (resolvedOpts gopts (j_cmd j))).1
  ++ (listen (resolvedOpts gopts (j_cmd j)) Pending (job_events j)).1.

(** The two jobs of the test suite: each child writes one chunk and closes
    with code 0. *)
Definition sample_jobs : list Job :=
  [MkJob (VObj {[ "command" := VStr "./test/slowScript.sh"; "onData" := VFun "push" ]})
         [StdoutData "1"] (Close (VNum 0));
   MkJob (VObj {[ "command" := VStr "echo 2"; "onData" := VFun "push" ]})
         [StdoutData "2"] (Close (VNum 0))].

(** [['ls', ' ', 'x']]: the second command has no token. *)
Definition blank_in_the_middle : JsVal := VArr [VStr "ls"; VStr " "; VStr "x"].

(** The calls of [onDone] that the events of a child ask for. *)
Definition done_calls (o : Obj) (evs : list ChildEvent) : list Effect :=
  omap (λ ev, match ev with
              | Close code => Some (Call (get o "onDone") [code])
              | Error err => Some (Call (get o "onDone") [err; VBool true])
              | StdoutData _ | StderrData _ => None
              end) evs.

(** * Properties *)

(** ** The tokenizer *)

Lemma plain_run_spec (s : list ascii) :
  s = (plain_run s).1 ++ (plain_run s).2
  ∧ Forall (λ c, is_plain c = true) (plain_run s).1
  ∧ delimiter_first (plain_run s).2.
Proof.
  induction s as [|c t (Happ & Hall & Hdel)]; simpl.
  - by repeat split.
  - destruct (is_plain c) eqn:Hc.
    + destruct (plain_run t) as [tok rest]; simpl in *.
      repeat split; [by f_equal | by constructor | done].
    + simpl. by repeat split.
Qed.

Lemma consume_Some pre r m rest :
  consume pre r = Some (m, rest) →
  ∃ m', r = Some (m', rest) ∧ m = pre ++ m'.
Proof.
  destruct r as [[m' rest']|]; simpl; [|done].
  intros [= <- <-]. by exists m'.
Qed.

Lemma quoted_tail_eq (turned : bool) (s : list ascii) :
  quoted_tail turned s =
    match s with
    | [] => None
    | c :: t =>
        let escaped :=
          match t with
          | q :: t' =>
              if is_backslash c && is_dquote q
              then consume [c; q] (quoted_tail true t')
              else None
          | [] => None
          end in
        match escaped with
        | Some r => Some r
        | None =>
            let other :=
              if is_dquote c then None else consume [c] (quoted_tail true t) in
            match other with
            | Some r => Some r
            | None => if turned && is_dquote c then Some ([c], t) else None
            end
        end
    end.
Proof. by destruct s. Qed.

Lemma is_dquote_true (c : ascii) : is_dquote c = true ↔ c = dquote.
Proof. apply Ascii.eqb_eq. Qed.

Lemma is_backslash_true (c : ascii) : is_backslash c = true ↔ c = backslash.
Proof. apply Ascii.eqb_eq. Qed.

Lemma quoted_body_head (body : list ascii) :
  quoted_body body → ∃ c b, body = c :: b ∧ is_dquote c = false.
Proof. destruct 1; eauto. Qed.

(** The cases of one turn of the matcher of a span. *)
Lemma quoted_tail_cons_None (turned : bool) (c : ascii) (t : list ascii) :
  quoted_tail turned (c :: t) = None →
  (∀ t', c = backslash → t = dquote :: t' → quoted_tail true t' = None)
  ∧ (is_dquote c = false → quoted_tail true t = None)
  ∧ (turned = true → is_dquote c = false).
Proof.
  rewrite quoted_tail_eq. cbv beta iota zeta. intros H. split_and!.
  - intros t' -> ->.
    replace (is_backslash backslash && is_dquote dquote) with true in H by done.
    by destruct (quoted_tail true t') as [[m r]|].
  - intros Hc. rewrite Hc in H.
    destruct (quoted_tail true t) as [[m r]|]; [|done].
    destruct t as [|q t']; [done|].
    destruct (is_backslash c && is_dquote q); [|done].
    by destruct (quoted_tail true t') as [[m' r']|].
  - intros ->. destruct (is_dquote c); [|done].
    destruct t as [|q t']; [done|].
    destruct (is_backslash c && is_dquote q); [|done].
    by destruct (quoted_tail true t') as [[m' r']|].
Qed.

Lemma quoted_tail_cons_Some (turned : bool) (c : ascii) (t m rest : list ascii) :
  quoted_tail turned (c :: t) = Some (m, rest) →
  (∃ t' m', c = backslash ∧ t = dquote :: t'
            ∧ quoted_tail true t' = Some (m', rest) ∧ m = c :: dquote :: m')
  ∨ (is_dquote c = false
     ∧ (∀ t', c = backslash → t = dquote :: t' → quoted_tail true t' = None)
     ∧ ∃ m', quoted_tail true t = Some (m', rest) ∧ m = c :: m')
  ∨ (turned = true ∧ c = dquote ∧ m = [c] ∧ rest = t).
Proof.
  rewrite quoted_tail_eq. cbv beta iota zeta.
  destruct (match t with
            | [] => None
            | q :: t' =>
                if is_backslash c && is_dquote q
                then consume [c; q] (quoted_tail true t') else None
            end) as [r|] eqn:Hesc.
  - intros [= ->]. left. destruct t as [|q t']; [done|].
    destruct (is_backslash c && is_dquote q) eqn:Hcq; [|done].
    apply andb_prop in Hcq as [Hc%is_backslash_true Hq%is_dquote_true].
    subst c q. apply consume_Some in Hesc as (m' & Htail & ->).
    by exists t', m'.
  - assert (∀ t', c = backslash → t = dquote :: t' → quoted_tail true t' = None)
      as Hnoesc.
    { intros t' -> ->.
      replace (is_backslash backslash && is_dquote dquote) with true in Hesc
        by done.
      by destruct (quoted_tail true t') as [[m' r']|]. }
    destruct (is_dquote c) eqn:Hc.
    + destruct turned; [|done]. simpl. intros [= <- <-]. right. right.
      by apply is_dquote_true in Hc.
    + destruct (consume [c] (quoted_tail true t)) as [r|] eqn:Hother.
      * intros [= ->]. right. left.
        apply consume_Some in Hother as (m' & Htail & ->).
        split_and!; [done..|]. by exists m'.
      * by rewrite andb_false_r.
Qed.

(** What the backtracking matcher of a span returns is the text up to a
    closing quote, and that text is a sequence of group items. *)
Lemma quoted_tail_spec (s : list ascii) :
  ∀ turned m rest,
    quoted_tail turned s = Some (m, rest) →
    s = m ++ rest
    ∧ ∃ body, m = body ++ [dquote]
              ∧ (quoted_body body ∨ (turned = true ∧ body = [])).
Proof.
  induction s as [s IH] using (induction_ltof1 _ (@List.length ascii)).
  unfold ltof in IH. intros turned m rest Hm.
  destruct s as [|c t]; [done|].
  apply quoted_tail_cons_Some in Hm
    as [(t' & m' & -> & -> & Htail & ->)
       |[(Hc & _ & m' & Htail & ->)|(-> & -> & -> & ->)]].
  - apply IH in Htail as (-> & body & -> & Hbody); [|simpl; lia].
    split; [done|]. exists (backslash :: dquote :: body). split; [done|].
    left. destruct Hbody as [Hbody|[_ ->]]; [by constructor | constructor].
  - apply IH in Htail as (-> & body & -> & Hbody); [|simpl; lia].
    split; [done|]. exists (c :: body). split; [done|].
    left. destruct Hbody as [Hbody|[_ ->]]; by constructor.
  - split; [done|]. exists []. split; [done|]. by right.
Qed.

(** When the matcher of a span fails, no closing quote can be reached. *)
Lemma quoted_tail_None (s : list ascii) :
  ∀ turned, quoted_tail turned s = None →
  ∀ body rest, quoted_body body ∨ (turned = true ∧ body = []) →
    s ≠ body ++ dquote :: rest.
Proof.
  induction s as [s IH] using (induction_ltof1 _ (@List.length ascii)).
  unfold ltof in IH. intros turned Hnone body rest Hbody Hs.
  destruct s as [|c t]; [by destruct body|].
  apply quoted_tail_cons_None in Hnone as (Hesc & Hother & Hclose).
  destruct Hbody as [Hbody|[-> ->]].
  - destruct Hbody as [c0 Hc0| |c0 body Hc0 Hbody|body Hbody];
      simpl in Hs; injection Hs as -> ->.
    + apply (IH (dquote :: rest) ltac:(simpl; lia) true (Hother Hc0) [] rest);
        [by right|done].
    + apply (IH (dquote :: rest) ltac:(simpl; lia) true
                (Hesc _ eq_refl eq_refl) [] rest); [by right|done].
    + apply (IH (body ++ dquote :: rest) ltac:(simpl; lia) true (Hother Hc0)
                body rest); [by left|done].
    + apply (IH (body ++ dquote :: rest) ltac:(simpl; lia) true
                (Hesc _ eq_refl eq_refl) body rest); [by left|done].
  - simpl in Hs. injection Hs as -> ->. by specialize (Hclose eq_refl).
Qed.

(** The matcher of a span returns the longest span there is. *)
Lemma quoted_tail_longest (s : list ascii) :
  ∀ turned m rest, quoted_tail turned s = Some (m, rest) →
  ∀ body' rest', quoted_body body' ∨ (turned = true ∧ body' = []) →
    s = body' ++ dquote :: rest' → List.length body' < List.length m.
Proof.
  induction s as [s IH] using (induction_ltof1 _ (@List.length ascii)).
  unfold ltof in IH. intros turned m rest Hm body' rest' Hbody Hs.
  destruct s as [|c t]; [done|].
  pose proof (quoted_tail_spec _ _ _ _ Hm) as (_ & body & Hmb & _).
  apply quoted_tail_cons_Some in Hm
    as [(t' & m' & -> & -> & Htail & ->)
       |[(Hc & Hnoesc & m' & Htail & ->)|(-> & -> & -> & ->)]].
  - pose proof (quoted_tail_spec _ _ _ _ Htail) as (_ & b' & -> & _).
    destruct Hbody as [Hbody|[_ ->]]; [|simpl; lia].
    destruct Hbody as [c0 Hc0| |c0 body0 Hc0 Hbody|body0 Hbody];
      simpl in Hs.
    + simpl. rewrite length_app. simpl. lia.
    + simpl. rewrite length_app. simpl. lia.
    + injection Hs as <- Hs.
      apply quoted_body_head in Hbody as (c1 & b1 & -> & Hc1).
      simpl in Hs. injection Hs as <- _. done.
    + injection Hs as Hs. simpl.
      assert (List.length body0 < List.length (b' ++ [dquote])); [|simpl; lia].
      apply (IH t' ltac:(simpl; lia) true _ rest Htail body0 rest');
        [by left|done].
  - pose proof (quoted_tail_spec _ _ _ _ Htail) as (_ & b' & -> & _).
    destruct Hbody as [Hbody|[_ ->]]; [|simpl; lia].
    destruct Hbody as [c0 Hc0| |c0 body0 Hc0 Hbody|body0 Hbody];
      simpl in Hs.
    + simpl. rewrite length_app. simpl. lia.
    + injection Hs as -> ->.
      specialize (Hnoesc _ eq_refl eq_refl).
      by destruct (quoted_tail_None _ _ Hnoesc [] rest' (or_intror (conj eq_refl eq_refl))).
    + injection Hs as -> Hs. simpl.
      assert (List.length body0 < List.length (b' ++ [dquote])); [|simpl; lia].
      apply (IH t ltac:(simpl; lia) true _ rest Htail body0 rest');
        [by left|done].
    + injection Hs as -> ->.
      specialize (Hnoesc _ eq_refl eq_refl).
      by destruct (quoted_tail_None _ _ Hnoesc body0 rest' (or_introl Hbody)).
  - destruct Hbody as [Hbody|[_ ->]]; [|simpl; lia].
    apply quoted_body_head in Hbody as (c1 & b1 & -> & Hc1).
    simpl in Hs. injection Hs as <- _. done.
Qed.

Lemma match_here_spec (s tok rest : list ascii) :
  match_here s = Some (tok, rest) →
  s = tok ++ rest ∧ tok ≠ []
  ∧ ((is_quoted_span tok
      ∧ ∀ tok' rest', is_quoted_span tok' → s = tok' ++ rest' →
                      List.length tok' ≤ List.length tok)
     ∨ (is_run tok ∧ delimiter_first rest)).
Proof.
  unfold match_here.
  destruct (plain_run_spec s) as (Happ & Hall & Hdel).
  destruct (plain_run s) as [[|c run] rest']; simpl in *.
  - destruct s as [|c t]; [done|].
    destruct (is_dquote c) eqn:Hc; [|done].
    intros (m & Htail & ->)%consume_Some.
    pose proof (quoted_tail_longest _ _ _ _ Htail) as Hlong.
    apply quoted_tail_spec in Htail as (-> & body & -> & [Hbody|[? _]]); [|done].
    apply is_dquote_true in Hc as ->.
    repeat split; [done|]. left. split; [by exists body|].
    intros tok' rest'' (body' & -> & Hbody') Hs. simpl in Hs.
    injection Hs as Hs.
    assert ((body ++ [dquote]) ++ rest = body' ++ dquote :: rest'') as Hs'.
    { rewrite Hs, <- !app_assoc. done. }
    specialize (Hlong body' rest'' (or_introl Hbody') Hs').
    simpl. rewrite !length_app in *. simpl in *. lia.
  - intros [= <- <-]. repeat split; [done..|]. right. by repeat split.
Qed.

Lemma match_here_None (c : ascii) (t : list ascii) :
  match_here (c :: t) = None →
  is_plain c = false
  ∧ ∀ tok rest, is_quoted_span tok → c :: t ≠ tok ++ rest.
Proof.
  unfold match_here. cbn [plain_run]. destruct (is_plain c) eqn:Hp.
  { by destruct (plain_run t). }
  destruct (is_dquote c) eqn:Hc.
  - destruct (quoted_tail false t) as [[m r]|] eqn:Htail; [done|].
    intros _. split; [done|]. intros tok rest (body & -> & Hbody) Hs.
    simpl in Hs. injection Hs as _ Hs. rewrite <- app_assoc in Hs.
    by destruct (quoted_tail_None _ _ Htail body rest (or_introl Hbody)).
  - intros _. split; [done|]. intros tok rest (body & -> & Hbody) Hs.
    simpl in Hs. injection Hs as -> _. done.
Qed.

Lemma scan_skip (tok rest : list ascii) :
  scan (List.length tok) (tok ++ rest) = scan 0 rest.
Proof. induction tok as [|c tok IH]; [by destruct rest | done]. Qed.

(** The scan resumes behind a match, or one character further. *)
Lemma scan_unfold (c : ascii) (t : list ascii) :
  scan 0 (c :: t) =
    match match_here (c :: t) with
    | Some (tok, rest) => tok :: scan 0 rest
    | None => scan 0 t
    end.
Proof.
  simpl scan. destruct (match_here (c :: t)) as [[tok rest]|] eqn:Hm; [|done].
  apply match_here_spec in Hm as (Happ & Hne & _).
  destruct tok as [|c' tok]; [done|]. simplify_eq/=.
  by rewrite Nat.sub_0_r, scan_skip.
Qed.

Lemma scan_Lexes (s : list ascii) : Lexes s (scan 0 s).
Proof.
  induction s as [s IH] using (induction_ltof1 _ (@List.length ascii)).
  unfold ltof in IH. destruct s as [|c t]; [constructor|].
  rewrite scan_unfold.
  destruct (match_here (c :: t)) as [[tok rest]|] eqn:Hm.
  - apply match_here_spec in Hm as (Happ & Hne & Hshape).
    assert (List.length rest < List.length (c :: t)) as Hlt.
    { rewrite Happ, length_app. destruct tok; [done|simpl; lia]. }
    rewrite Happ. destruct Hshape as [[Hq Hlong]|[Hr Hd]].
    + apply lex_quoted; [done| |by apply IH]. by rewrite <- Happ.
    + apply lex_run; [done.. | by apply IH].
  - apply match_here_None in Hm as [Hc Hno].
    apply lex_gap; [done..|apply IH; simpl; lia].
Qed.

Lemma plain_run_app (tok rest : list ascii) :
  Forall (λ c, is_plain c = true) tok → delimiter_first rest →
  plain_run (tok ++ rest) = (tok, rest).
Proof.
  intros Htok Hrest. induction Htok as [|c tok Hc _ IH]; cbn [app plain_run].
  - destruct rest as [|c rest]; [done|]. unfold delimiter_first in Hrest.
    cbn [plain_run]. by rewrite Hrest.
  - by rewrite Hc, IH.
Qed.

(** The segmentation is unique: it is the one the scan computes. *)
Lemma Lexes_scan (s : list ascii) (toks : list (list ascii)) :
  Lexes s toks → toks = scan 0 s.
Proof.
  induction 1 as [|c s toks Hc Hno _ IH|tok rest toks Hrun Hdel _ IH
                 |tok rest toks Hq Hlong _ IH].
  - done.
  - rewrite scan_unfold.
    destruct (match_here (c :: s)) as [[tok rest]|] eqn:Hm; [|done].
    apply match_here_spec in Hm as (Happ & Hne & [[Hq _]|[[_ Hall] _]]).
    + by destruct (Hno tok rest Hq).
    + destruct tok as [|c' tok]; [done|]. simpl in Happ. injection Happ as <- _.
      apply Forall_cons in Hall as [Hc' _]. congruence.
  - destruct Hrun as [Hne Hall]. destruct tok as [|c tok]; [done|].
    cbn [app]. rewrite scan_unfold.
    change (c :: tok ++ rest) with ((c :: tok) ++ rest).
    unfold match_here. rewrite plain_run_app by done. by rewrite IH.
  - pose proof Hq as (body & -> & Hbody). cbn [app]. rewrite scan_unfold.
    destruct (match_here _) as [[tok' rest']|] eqn:Hm.
    + apply match_here_spec in Hm as (Happ & Hne & [[Hq' Hlong']|[[_ Hall] _]]).
      * assert (List.length tok' = List.length (dquote :: body ++ [dquote]))
          as Hlen.
        { apply Nat.le_antisymm.
          - by apply (Hlong tok' rest').
          - by apply (Hlong' _ rest). }
        change (dquote :: (body ++ [dquote]) ++ rest)
          with ((dquote :: body ++ [dquote]) ++ rest) in Happ.
        apply app_inj_1 in Happ as [<- <-]; [|done]. by rewrite IH.
      * destruct tok' as [|c' tok']; [done|]. simpl in Happ.
        injection Happ as <- _. by apply Forall_cons in Hall as [Hc' _].
    + apply match_here_None in Hm as [_ Hno].
      by destruct (Hno (dquote :: body ++ [dquote]) rest Hq).
Qed.

Lemma strip_quotes_span (body : list ascii) :
  strip_quotes (dquote :: body ++ [dquote]) = body.
Proof.
  unfold strip_quotes.
  replace (dquote :: body ++ [dquote]) with ((dquote :: body) ++ [dquote]) by done.
  rewrite List.last_last. simpl. apply removelast_last.
Qed.

Lemma strip_quotes_run (tok : list ascii) :
  is_run tok → strip_quotes tok = tok.
Proof.
  intros [Hne Hall]. destruct tok as [|c tok]; [done|].
  apply Forall_cons in Hall as [Hc _]. unfold strip_quotes, is_plain in *.
  by destruct (is_dquote c).
Qed.

Lemma delimiter_last_snoc (s : list ascii) (c : ascii) :
  is_plain c = false → delimiter_last (s ++ [c]).
Proof. intros Hc. unfold delimiter_last. by rewrite last_snoc. Qed.

Lemma delimiter_last_run (pre tok : list ascii) :
  is_run tok → delimiter_last pre ∨ delimiter_first tok → delimiter_last pre.
Proof.
  intros [Hne Hall] [H|H]; [done|]. destruct tok as [|c tok]; [done|].
  apply Forall_cons in Hall as [Hc _]. simpl in H. congruence.
Qed.

(** Every token of a segmentation sits in the text as a quoted span, or as a
    run that cannot be extended on either side. *)
Lemma Lexes_tokens (s : list ascii) (toks : list (list ascii)) :
  Lexes s toks →
  ∀ pre, delimiter_last pre ∨ delimiter_first s →
    Forall (λ tok, ∃ p q, pre ++ s = p ++ tok ++ q
                          ∧ (is_quoted_span tok
                             ∨ (is_run tok ∧ delimiter_last p ∧ delimiter_first q)))
           toks.
Proof.
  induction 1 as [|c s toks Hc _ _ IH|tok rest toks Hrun Hdel _ IH
                 |tok rest toks Hq _ _ IH]; intros pre Hpre.
  - constructor.
  - specialize (IH (pre ++ [c])). rewrite <- app_assoc in IH.
    apply IH. left. by apply delimiter_last_snoc.
  - constructor.
    + exists pre, rest. split; [done|]. right. split; [done|]. split; [|done].
      apply (delimiter_last_run pre tok Hrun).
      destruct Hpre as [?|Hpre]; [by left|right].
      destruct Hrun as [Hne _]. by destruct tok.
    + specialize (IH (pre ++ tok)). rewrite <- app_assoc in IH.
      apply IH. by right.
  - constructor.
    + exists pre, rest. split; [done|]. by left.
    + specialize (IH (pre ++ tok)). rewrite <- app_assoc in IH.
      apply IH. left. destruct Hq as (body & -> & _).
      replace (dquote :: body ++ [dquote]) with ((dquote :: body) ++ [dquote]) by done.
      rewrite app_assoc. by apply delimiter_last_snoc.
Qed.

Lemma token_text_strip (tok : list ascii) (text : string) :
  token_text tok text → text = string_of_list_ascii (strip_quotes tok).
Proof.
  destruct 1 as [tok Hrun|body Hbody].
  - by rewrite strip_quotes_run.
  - by rewrite strip_quotes_span.
Qed.

Lemma token_text_of (tok : list ascii) :
  is_run tok ∨ is_quoted_span tok →
  token_text tok (string_of_list_ascii (strip_quotes tok)).
Proof.
  intros [Hrun|(body & -> & Hbody)].
  - rewrite strip_quotes_run by done. by constructor.
  - rewrite strip_quotes_span. by constructor.
Qed.

Lemma Lexes_shape (s : list ascii) (toks : list (list ascii)) :
  Lexes s toks → Forall (λ tok, is_run tok ∨ is_quoted_span tok) toks.
Proof. induction 1; try done; constructor; auto. Qed.

(** C6. The matches of the pattern on a command line are its one and only
    segmentation, in order, into tokens separated by white space and by
    quotes at which no quoted span starts; every token is either a maximal
    run of characters that are neither white space nor quotes, kept as it
    is, or a double-quoted span, the longest that starts at its opening
    quote, whose body may contain quotes escaped by a backslash and whose
    two enclosing quotes are stripped; the text of the first token is the
    executable and the texts of the others are its arguments, and there is
    no executable exactly when the segmentation has no token. *)
Theorem tokenization_shape (command : string) :
  let s := list_ascii_of_string command in
  let toks := scan 0 s in
  Lexes s toks
  ∧ (∀ toks', Lexes s toks' → toks' = toks)
  ∧ Forall (λ tok, ∃ pre post,
              s = pre ++ tok ++ post
              ∧ ((∃ body, tok = dquote :: body ++ [dquote]
                          ∧ quoted_body body ∧ strip_quotes tok = body)
                 ∨ (is_run tok ∧ delimiter_last pre ∧ delimiter_first post
                    ∧ strip_quotes tok = tok))) toks
  ∧ (∀ file args,
       tokenize command = Some (file, args)
       ↔ ∃ toks', Lexes s toks' ∧ Forall2 token_text toks' (file :: args))
  ∧ (tokenize command = None ↔ Lexes s []).
Proof.
  intros s toks. pose proof (scan_Lexes s) as Hlex. fold toks in Hlex.
  split_and!.
  - done.
  - intros toks'. apply Lexes_scan.
  - pose proof (Lexes_tokens s toks Hlex [] (or_introl I)) as Htoks.
    eapply Forall_impl; [exact Htoks|]. simpl.
    intros tok (p & q & Happ & [Hq|(Hr & Hp & Hd)]); exists p, q.
    + split; [done|]. left. destruct Hq as (body & -> & Hbody).
      exists body. by rewrite strip_quotes_span.
    + split; [done|]. right. by rewrite strip_quotes_run.
  - intros file args. unfold tokenize, js_match. fold s. fold toks. split.
    + destruct toks as [|tok toks0] eqn:Htoks; [done|]. intros [= <- <-].
      exists (tok :: toks0). split; [done|].
      apply Lexes_shape in Hlex. apply Forall_cons in Hlex as [Htok Hrest].
      constructor; [by apply token_text_of|].
      apply Forall2_fmap_r, Forall_Forall2_diag.
      eapply Forall_impl; [exact Hrest|]. intros t Ht. by apply token_text_of.
    + intros (toks' & Hlex' & Htext). apply Lexes_scan in Hlex'. fold s in Hlex'.
      fold toks in Hlex'. subst toks'.
      inversion Htext as [|tok text toks0 texts Htok Hrest Htoks]. subst.
      rewrite (token_text_strip _ _ Htok). f_equal. f_equal.
      clear -Hrest. induction Hrest as [|t x ts xs Ht _ IH]; [done|].
      simpl. by rewrite IH, (token_text_strip _ _ Ht).
  - unfold tokenize, js_match. fold s. fold toks. split.
    + by destruct toks.
    + intros Hnil%Lexes_scan. fold s in Hnil. fold toks in Hnil. by rewrite <- Hnil.
Qed.
(** ** One command: [run] *)

Lemma spawnProcessOpts_lookup (options : Obj) (k : string) :
  spawnProcessOpts options !! k =
    if decide (k ∈ spawnOptsAllowedKeys) then options !! k else None.
Proof.
  unfold spawnProcessOpts. apply option_eq. intros v.
  rewrite map_lookup_filter_Some. simpl.
  destruct (decide (k ∈ spawnOptsAllowedKeys)); [tauto|]. split; [tauto|done].
Qed.

(** The executor of [run], flattened into its cases. *)
Lemma run_executor_cases (options : Obj) :
  run_executor options =
    if js_truthy (get options "verbose") && negb (is_function (get options "logger"))
    then ([], (NoListeners, Throw TypeError))
    else
      match get options "command" with
      | VStr s =>
          match tokenize s with
          | Some (file, args) =>
              (logged options ++ [Spawn file args (spawnProcessOpts options)],
               match host_spawn file args (spawnProcessOpts options) with
               | SpawnThrows name => (NoListeners, Throw (VError name))
               | Child out err => install_listeners (out, err)
               end)
          | None => (logged options, (NoListeners, Throw TypeError))
          end
      | _ => (logged options, (NoListeners, Throw TypeError))
      end.
Proof.
  unfold run_executor, spawn_child, js_spawn, js_call, split_command, logged.
  destruct (js_truthy (get options "verbose")),
    (is_function (get options "logger")); simpl;
    destruct (get options "command") as [| | | |s| | | |]; simpl; try done;
    destruct (tokenize s) as [[file args]|]; simpl; try done;
    by destruct (host_spawn file args (spawnProcessOpts options)).
Qed.

Lemma run_cases (options : Obj) :
  run options =
    if js_truthy (get options "verbose") && negb (is_function (get options "logger"))
    then ([], Rejected TypeError)
    else
      match get options "command" with
      | VStr s =>
          match tokenize s with
          | Some (file, args) =>
              (logged options ++ [Spawn file args (spawnProcessOpts options)],
               promise_of (host_spawn file args (spawnProcessOpts options)))
          | None => (logged options, Rejected TypeError)
          end
      | _ => (logged options, Rejected TypeError)
      end.
Proof.
  unfold run. rewrite run_executor_cases.
  destruct (_ && _); [done|].
  destruct (get options "command") as [| | | |s| | | |]; try done.
  destruct (tokenize s) as [[file args]|]; [|done].
  by destruct (host_spawn file args (spawnProcessOpts options)) as [?|[] []].
Qed.

Lemma listeners_cases (options : Obj) :
  listeners options =
    if js_truthy (get options "verbose") && negb (is_function (get options "logger"))
    then NoListeners
    else
      match get options "command" with
      | VStr s =>
          match tokenize s with
          | Some (file, args) =>
              listeners_of (host_spawn file args (spawnProcessOpts options))
          | None => NoListeners
          end
      | _ => NoListeners
      end.
Proof.
  unfold listeners. rewrite run_executor_cases.
  destruct (_ && _); [done|].
  destruct (get options "command") as [| | | |s| | | |]; try done.
  destruct (tokenize s) as [[file args]|]; [|done].
  by destruct (host_spawn file args (spawnProcessOpts options)) as [?|[] []].
Qed.

(** A promise returned by [run] is pending or rejected. *)
Lemma run_promise (options : Obj) :
  (run options).2 = Pending ∨ ∃ e, (run options).2 = Rejected e.
Proof.
  rewrite run_cases.
  destruct (_ && _); [by eauto|].
  destruct (get options "command") as [| | | |s| | | |]; try by eauto.
  destruct (tokenize s) as [[file args]|]; [|by eauto].
  destruct (host_spawn file args (spawnProcessOpts options)) as [?|[] []];
    simpl; eauto.
Qed.

(** What a call of [run] is rejected with is an error object. *)
Lemma run_rejected_error (options : Obj) (e : JsVal) :
  (run options).2 = Rejected e → ∃ name, e = VError name.
Proof.
  rewrite run_cases. unfold TypeError.
  destruct (_ && _); [intros [= <-]; by eauto|].
  destruct (get options "command") as [| | | |s| | | |];
    try (intros [= <-]; by eauto).
  destruct (tokenize s) as [[file args]|]; [|intros [= <-]; by eauto].
  destruct (host_spawn file args (spawnProcessOpts options)) as [?|[] []];
    simpl; try done; intros [= <-]; by eauto.
Qed.

Lemma run_not_fulfilled (options : Obj) (v : JsVal) :
  (run options).2 ≠ Fulfilled v.
Proof. by destruct (run_promise options) as [->|[e ->]]. Qed.

(** The promise is left pending exactly when all the listeners are there. *)
Lemma listeners_all_iff (options : Obj) :
  listeners options = AllListeners ↔ (run options).2 = Pending.
Proof.
  rewrite listeners_cases, run_cases.
  destruct (_ && _); [done|].
  destruct (get options "command") as [| | | |s| | | |]; try done.
  destruct (tokenize s) as [[file args]|]; [|done].
  by destruct (host_spawn file args (spawnProcessOpts options)) as [?|[] []].
Qed.

(** A child whose [run] was rejected delivers no completion. *)
Lemma delivered_completion (options : Obj) (ev : ChildEvent) :
  delivered (listeners options) ev = true →
  (run options).2 = Pending ∨ completion ev = None.
Proof.
  destruct (listeners options) eqn:Hl; simpl.
  - done.
  - destruct ev; try done; by right.
  - intros _. left. by apply listeners_all_iff.
Qed.

Lemma run_event_no_spawn (options : Obj) (p : Promise) (ev : ChildEvent) :
  spawns (run_event options p ev).1 = [].
Proof.
  destruct ev; simpl; unfold on_data, on_done;
    repeat (destruct (js_truthy _) || destruct (is_function _)); done.
Qed.

(** C8. The options handed to the spawn primitive are the resolved options
    restricted to the allow-list cwd, env, stdio, detached, uid, gid,
    shell: an allow-listed field is forwarded with its value, and no other
    field (callbacks, verbose, logger, mode, command among them) is present
    in the spawn options; this holds for every set of resolved options, and
    the listeners spawn nothing. *)
Theorem spawn_options_allow_list (options : Obj) :
  Forall (λ e, match e with
               | Spawn _ _ o => o = spawnProcessOpts options
               | Call _ _ => True
               end) (run options).1
  ∧ (∀ k, spawnProcessOpts options !! k =
            if decide (k ∈ ["cwd"; "env"; "stdio"; "detached"; "uid"; "gid"; "shell"])
            then options !! k else None)
  ∧ Forall (λ k, spawnProcessOpts options !! k = None)
      ["onData"; "onOutput"; "onError"; "onErrorOutput"; "onDone"; "onComplete";
       "verbose"; "logger"; "mode"; "command"]
  ∧ (∀ p ev, spawns (run_event options p ev).1 = []).
Proof.
  split_and!.
  - rewrite run_cases. unfold logged. destruct (_ && _); [constructor|].
    destruct (js_truthy (get options "verbose"));
      destruct (get options "command") as [| | | |s| | | |];
      repeat constructor;
      destruct (tokenize s) as [[file args]|]; by repeat constructor.
  - apply spawnProcessOpts_lookup.
  - repeat (constructor; [by rewrite spawnProcessOpts_lookup|]). constructor.
  - apply run_event_no_spawn.
Qed.

Lemma first_completion_nil (i : nat) : first_completion i [] = None.
Proof. done. Qed.

Lemma first_completion_cons (i : nat) (e : nat * ChildEvent) sched :
  first_completion i (e :: sched) =
    match completion_of i e with
    | Some v => Some v
    | None => first_completion i sched
    end.
Proof. unfold first_completion. simpl. by destruct (completion_of i e). Qed.

Lemma first_completion_snoc (i : nat) sched (e : nat * ChildEvent) :
  first_completion i (sched ++ [e]) =
    match first_completion i sched with
    | Some v => Some v
    | None => completion_of i e
    end.
Proof.
  induction sched as [|e' sched IH].
  - simpl. rewrite first_completion_cons, !first_completion_nil.
    by destruct (completion_of i e).
  - simpl. rewrite !first_completion_cons. by destruct (completion_of i e').
Qed.

(** The promise of one [run] under the events of its child. *)
Lemma listen_promise (options : Obj) (evs : list ChildEvent) (p : Promise) :
  (listen options p evs).2 =
    match p with
    | Pending =>
        match head (omap completion evs) with
        | Some v => Fulfilled v
        | None => Pending
        end
    | _ => p
    end.
Proof.
  revert p. induction evs as [|ev evs IH]; intros p; simpl.
  - by destruct p.
  - destruct (run_event options p ev) as [l p'] eqn:Hev.
    specialize (IH p'). destruct (listen options p' evs) as [l' p'']. simpl in *.
    subst p''. destruct ev; simpl in Hev; simplify_eq; simpl; try done;
      by destruct p.
Qed.

(** *** When [run] leaves its promise pending *)

Lemma listening_well_formed (options : Obj) :
  listening options → well_formed options.
Proof. intros (Hl & s & file & args & Hc & Ht & _). split; eauto. Qed.

Lemma run_pending_iff (options : Obj) :
  (run options).2 = Pending ↔ listening options.
Proof.
  rewrite run_cases. unfold listening.
  destruct (js_truthy (get options "verbose")),
    (is_function (get options "logger")); simpl;
    destruct (get options "command") as [| | | |s| | | |];
    try destruct (tokenize s) as [[file args]|] eqn:Htok; simpl;
    try destruct (host_spawn file args (spawnProcessOpts options))
      as [?|[] []] eqn:Hs; simpl;
    (split;
     [first [done | intros _; split; [done|by eauto 10]]
     |intros (Hl & s0 & f0 & a0 & Hc & Ht & Hh); simplify_eq;
      first [done | congruence | by specialize (Hl eq_refl)]]).
Qed.

Lemma run_well_formed (o : Obj) :
  well_formed o →
  ∃ s file args,
    get o "command" = VStr s ∧ tokenize s = Some (file, args)
    ∧ run o = (logged o ++ [Spawn file args (spawnProcessOpts o)],
               promise_of (host_spawn file args (spawnProcessOpts o)))
    ∧ listeners o = listeners_of (host_spawn file args (spawnProcessOpts o)).
Proof.
  intros (Hlog & s & file & args & Hcmd & Htok). exists s, file, args.
  split_and!; [done..| |].
  - rewrite run_cases, Hcmd, Htok.
    destruct (js_truthy (get o "verbose")); [|done]. by rewrite Hlog.
  - rewrite listeners_cases, Hcmd, Htok.
    destruct (js_truthy (get o "verbose")); [|done]. by rewrite Hlog.
Qed.

Lemma run_not_well_formed (o : Obj) :
  ¬ well_formed o →
  (run o).2 = Rejected TypeError ∧ spawns (run o).1 = []
  ∧ listeners o = NoListeners.
Proof.
  intros Hwf. rewrite run_cases, listeners_cases. unfold logged.
  destruct (js_truthy (get o "verbose")) eqn:Hv,
    (is_function (get o "logger")) eqn:Hl; simpl; try done;
    destruct (get o "command") as [| | | |s| | | |] eqn:Hcmd; try done;
    destruct (tokenize s) as [[file args]|] eqn:Htok; try done;
    destruct Hwf; (split; [by rewrite Hv|by exists s, file, args]).
Qed.

Lemma run_not_well_formed_promise (o : Obj) :
  ¬ well_formed o → (run o).2 = Rejected TypeError ∧ spawns (run o).1 = [].
Proof. intros (? & ? & _)%run_not_well_formed. done. Qed.

Lemma spawns_app (l l' : list Effect) : spawns (l ++ l') = spawns l ++ spawns l'.
Proof. apply List.filter_app. Qed.

Lemma spawns_logged (o : Obj) : spawns (logged o) = [].
Proof. unfold logged. by destruct (js_truthy _). Qed.

(** The options are well formed exactly when [run] calls [spawn]. *)
Lemma well_formed_spawns (o : Obj) :
  well_formed o ↔ spawns (run o).1 ≠ [].
Proof.
  split.
  - intros (s & file & args & _ & _ & -> & _)%run_well_formed. cbn [fst].
    by rewrite spawns_app, spawns_logged.
  - intros Hsp. rewrite run_cases in Hsp. unfold well_formed.
    destruct (js_truthy (get o "verbose") && negb (is_function (get o "logger")))
      eqn:Hvl; [done|].
    destruct (get o "command") as [| | | |s| | | |] eqn:Hcmd;
      try (cbn [fst] in Hsp; by rewrite spawns_logged in Hsp).
    destruct (tokenize s) as [[file args]|] eqn:Htok;
      [|cbn [fst] in Hsp; by rewrite spawns_logged in Hsp].
    split; [|by exists s, file, args].
    intros Hv. rewrite Hv in Hvl. by destruct (is_function (get o "logger")).
Qed.

Lemma calls_logged (o : Obj) : calls (logged o) = logged o.
Proof. unfold logged. by destruct (js_truthy _). Qed.

Lemma calls_app (l l' : list Effect) : calls (l ++ l') = calls l ++ calls l'.
Proof. apply List.filter_app. Qed.




(** ** The batch: [runMultiple] *)

(** Projections of explicit records. *)
Ltac batch_simpl :=
  cbn [b_mode b_globalOpts b_procs b_queue b_results b_outcome b_trace
       p_options p_promise] in *.

Lemma exec_snoc (b : Batch) sched (e : nat * ChildEvent) :
  exec b (sched ++ [e]) =
    match exec b sched with
    | Some b' => step b' e
    | None => None
    end.
Proof.
  revert b. induction sched as [|e' sched IH]; intros b; simpl.
  - by destruct (step b e).
  - destruct (step b e'); [apply IH | done].
Qed.

Lemma launch_eq (gopts : Obj) (cmd : JsVal) :
  launch gopts cmd =
    ((run (resolvedOpts gopts cmd)).1, proc_at gopts [] 0 cmd).
Proof.
  unfold launch, proc_at. rewrite first_completion_nil.
  destruct (run (resolvedOpts gopts cmd)) as [l p]. simpl. by destruct p.
Qed.

Lemma proc_at_nil (gopts : Obj) (i : nat) (cmd : JsVal) :
  proc_at gopts [] i cmd
  = MkProc (resolvedOpts gopts cmd) (run (resolvedOpts gopts cmd)).2.
Proof.
  unfold proc_at. rewrite first_completion_nil.
  by destruct (run (resolvedOpts gopts cmd)).2.
Qed.

Lemma spawned_snoc (gopts : Obj) (commands : list JsVal) (cmd : JsVal) :
  spawned gopts (commands ++ [cmd]) =
    spawned gopts commands ++ spawns (run (resolvedOpts gopts cmd)).1.
Proof.
  unfold spawned. rewrite map_app, concat_app. simpl. by rewrite app_nil_r.
Qed.

Lemma spawns_concat (ls : list (list Effect)) :
  spawns (concat ls) = concat (map spawns ls).
Proof.
  induction ls as [|l ls IH]; [done|]. simpl. by rewrite spawns_app, IH.
Qed.

Lemma first_completion_other (i j : nat) sched (ev : ChildEvent) :
  i ≠ j → first_completion i (sched ++ [(j, ev)]) = first_completion i sched.
Proof.
  intros Hij. rewrite first_completion_snoc. unfold completion_of. simpl.
  rewrite decide_False by done. by destruct (first_completion i sched).
Qed.

(** One event of child [j] brings the [j]-th call of [run] from its state
    after [sched] to its state after [sched ++ [(j, ev)]], and leaves the
    others as they are. *)
Lemma proc_at_event (gopts : Obj) sched (j : nat) (ev : ChildEvent) (cmd : JsVal) :
  MkProc (p_options (proc_at gopts sched j cmd))
         (run_event (p_options (proc_at gopts sched j cmd))
                    (p_promise (proc_at gopts sched j cmd)) ev).2
  = proc_at gopts (sched ++ [(j, ev)]) j cmd.
Proof.
  unfold proc_at. simpl. f_equal.
  rewrite first_completion_snoc. unfold completion_of. simpl.
  rewrite decide_True by done.
  destruct ((run (resolvedOpts gopts cmd)).2);
    destruct (first_completion j sched); by destruct ev.
Qed.

Lemma procs_event (gopts : Obj) sched (j : nat) (ev : ChildEvent)
    (commands : list JsVal) (options : Obj) (p : Promise) :
  imap (proc_at gopts sched) commands !! j = Some (MkProc options p) →
  <[j := MkProc options (run_event options p ev).2]>
    (imap (proc_at gopts sched) commands)
  = imap (proc_at gopts (sched ++ [(j, ev)])) commands.
Proof.
  intros Hj. rewrite list_lookup_imap in Hj.
  destruct (commands !! j) as [cmd|] eqn:Hcmd; [|done]. simpl in Hj.
  apply list_eq. intros i. destruct (decide (i = j)) as [->|Hij].
  - rewrite list_lookup_insert_eq
      by (rewrite length_imap; by eapply lookup_lt_Some).
    rewrite list_lookup_imap, Hcmd. simpl. f_equal.
    assert (proc_at gopts sched j cmd = MkProc options p) as Hj' by congruence.
    rewrite <- proc_at_event. by rewrite Hj'.
  - rewrite list_lookup_insert_ne by done. rewrite !list_lookup_imap.
    destruct (commands !! i) as [cmd'|]; [|done]. simpl.
    unfold proc_at. by rewrite first_completion_other.
Qed.

(** Decomposition of a step: the event reaches a listener of an existing
    child, which runs. *)
Lemma step_Some (b b' : Batch) (i : nat) (ev : ChildEvent) :
  step b (i, ev) = Some b' →
  ∃ options p,
    b_procs b !! i = Some (MkProc options p)
    ∧ delivered (listeners options) ev = true
    ∧ let procs := <[i := MkProc options (run_event options p ev).2]> (b_procs b) in
      let trace := b_trace b ++ (run_event options p ev).1 in
      b' = match b_mode b with
           | Parallel =>
               MkBatch Parallel (b_globalOpts b) procs (b_queue b) (b_results b)
                       (promise_all (map p_promise procs)) trace
           | Sequential =>
               match p, (run_event options p ev).2 with
               | Pending, Fulfilled v =>
                   seq_resume
                     (MkBatch Sequential (b_globalOpts b) procs (b_queue b)
                              (b_results b ++ [v]) (b_outcome b) trace)
               | _, _ =>
                   MkBatch Sequential (b_globalOpts b) procs (b_queue b)
                           (b_results b) (b_outcome b) trace
               end
           end.
Proof.
  unfold step. destruct (b_procs b !! i) as [[options p]|]; [|done].
  destruct (delivered (listeners options) ev) eqn:Hdel; [|done].
  destruct (run_event options p ev) as [l p'] eqn:Hev. simpl.
  destruct p as [|v|e]; intros Hb'; exists options; eexists;
    (split; [done|]); (split; [done|]); rewrite Hev; simpl;
    destruct (b_mode b); try destruct p'; by simplify_eq.
Qed.

Section Reachable.

Variable gopts : Obj.
Variable commands : list JsVal.

Lemma dispatched_event sched (b : Batch) (i : nat) (ev : ChildEvent)
    (options : Obj) (p : Promise) (queue results : list JsVal) (outcome : Promise) :
  dispatched gopts commands sched b →
  b_procs b !! i = Some (MkProc options p) →
  dispatched gopts commands (sched ++ [(i, ev)])
    (MkBatch (b_mode b) (b_globalOpts b)
             (<[i := MkProc options (run_event options p ev).2]> (b_procs b))
             queue results outcome
             (b_trace b ++ (run_event options p ev).1)).
Proof.
  intros (Hg & Hlen & Hprocs & Htrace) Hi. unfold dispatched. simpl.
  rewrite length_insert. split_and!; [done..| |].
  - rewrite Hprocs at 1. rewrite Hprocs in Hi.
    by apply procs_event.
  - by rewrite spawns_app, run_event_no_spawn, app_nil_r.
Qed.

Lemma par_start_inv : par_inv gopts commands [] (par_start gopts commands).
Proof.
  unfold par_inv, dispatched, par_start. simpl.
  rewrite !length_map, firstn_all.
  split_and!; [done..| | |done|done].
  - rewrite map_map. apply list_eq. intros i.
    rewrite list_lookup_fmap, list_lookup_imap.
    destruct (commands !! i); [|done]. simpl. by rewrite launch_eq.
  - rewrite map_map, spawns_concat, map_map. unfold spawned. f_equal.
    apply map_ext. intros cmd. by rewrite launch_eq.
Qed.

Lemma par_step_inv sched (b b' : Batch) (e : nat * ChildEvent) :
  par_inv gopts commands sched b →
  step b e = Some b' →
  par_inv gopts commands (sched ++ [e]) b'.
Proof.
  intros (Hmode & Hdisp & Hlen & Hout) Hstep. destruct e as [i ev].
  apply step_Some in Hstep as (options & p & Hi & _ & ->).
  rewrite Hmode. unfold par_inv. simpl.
  split_and!; [done| | |done].
  - rewrite <- Hmode. by apply dispatched_event.
  - by rewrite length_insert.
Qed.

Lemma par_reachable sched (b : Batch) :
  exec (par_start gopts commands) sched = Some b →
  par_inv gopts commands sched b.
Proof.
  revert b. induction sched as [|e sched IH] using rev_ind; intros b.
  - intros [= <-]. apply par_start_inv.
  - rewrite exec_snoc.
    destruct (exec (par_start gopts commands) sched) as [b0|]; [|done].
    intros Hstep. eapply par_step_inv; [by apply IH | done].
Qed.

Lemma proc_at_fresh sched (i : nat) (cmd : JsVal) :
  first_completion i sched = None →
  proc_at gopts sched i cmd = proc_at gopts [] 0 cmd.
Proof. unfold proc_at. intros ->. by rewrite first_completion_nil. Qed.

(** The generator, resumed when every call of [run] made so far is
    fulfilled, dispatches the next command or resolves the batch. *)
Lemma seq_resume_inv sched (b : Batch) :
  b_mode b = Sequential →
  dispatched gopts commands sched b →
  b_queue b = drop (length (b_procs b)) commands →
  length (b_procs b) = length (b_results b) →
  map Fulfilled (b_results b) = map p_promise (b_procs b) →
  (∀ i, length (b_results b) ≤ i → first_completion i sched = None) →
  b_outcome b = Pending →
  seq_inv gopts commands sched (seq_resume b).
Proof.
  intros Hmode (Hg & Hle & Hprocs & Htrace) Hqueue Hlen Hres Hnone Hout.
  unfold seq_resume. destruct (b_queue b) as [|cmd rest] eqn:Hq.
  - assert (length (b_results b) = length commands) as Hk.
    { symmetry in Hqueue. apply drop_nil_inv in Hqueue. lia. }
    unfold seq_inv, dispatched. batch_simpl.
    rewrite Hout, decide_True by done.
    split_and!; try done; [lia|].
    by rewrite <- Hlen, firstn_all.
  - assert (commands !! length (b_procs b) = Some cmd) as Hcmd.
    { rewrite <- (Nat.add_0_r (length _)), <- lookup_drop, <- Hqueue. done. }
    assert (rest = drop (S (length (b_procs b))) commands) as Hrest.
    { erewrite drop_S in Hqueue by done. congruence. }
    apply lookup_lt_Some in Hcmd as Hlt.
    rewrite launch_eq. unfold seq_inv, dispatched. batch_simpl.
    rewrite length_app. simpl length. rewrite Nat.add_1_r.
    erewrite take_S_r by done.
    rewrite Hg in *.
    split_and!; try done.
    + rewrite imap_app. f_equal; [done|]. simpl. f_equal.
      rewrite length_take_le by lia. rewrite Nat.add_0_r.
      symmetry. apply proc_at_fresh. apply Hnone. lia.
    + by rewrite spawns_app, spawned_snoc, Htrace.
    + lia.
    + rewrite <- Hlen, take_app_length. done.
    + rewrite decide_False by lia. rewrite <- Hlen.
      rewrite lookup_app_r, Nat.sub_diag by done. simpl.
      rewrite Hout. by destruct (promise_after _ _).
Qed.

Lemma fulfilled_prefix (results : list JsVal) (procs : list Proc) (i : nat) (p : Proc) :
  map Fulfilled results = map p_promise (take (length results) procs) →
  i < length results → procs !! i = Some p →
  ∃ v, p_promise p = Fulfilled v.
Proof.
  intros Hres Hi Hp.
  assert (map Fulfilled results !! i = Some (p_promise p)) as Hv.
  { rewrite Hres, list_lookup_fmap, lookup_take_lt by done. by rewrite Hp. }
  rewrite list_lookup_fmap in Hv. destruct (results !! i) as [v|]; [|done].
  exists v. by simplify_eq/=.
Qed.

Lemma results_snoc (results : list JsVal) (procs : list Proc)
    (options : Obj) (v : JsVal) :
  length procs = S (length results) →
  map Fulfilled results = map p_promise (take (length results) procs) →
  map Fulfilled (results ++ [v])
  = map p_promise (<[length results := MkProc options (Fulfilled v)]> procs).
Proof.
  intros Hlen Hres. rewrite list_fmap_insert, map_app. simpl.
  apply list_eq. intros j.
  destruct (decide (j = length results)) as [->|Hj].
  - rewrite list_lookup_insert_eq by (rewrite length_map; lia).
    rewrite lookup_app_r by (by rewrite length_map).
    by rewrite length_map, Nat.sub_diag.
  - rewrite list_lookup_insert_ne by done.
    destruct (decide (j < length results)) as [Hlt|Hge].
    + rewrite lookup_app_l by (by rewrite length_map).
      by rewrite Hres, !list_lookup_fmap, lookup_take_lt.
    + rewrite !lookup_ge_None_2; [done|rewrite length_map; lia|].
      rewrite length_app, length_map. simpl. lia.
Qed.

Lemma seq_start_inv : seq_inv gopts commands [] (seq_start gopts commands).
Proof.
  unfold seq_start. apply seq_resume_inv; batch_simpl; try done.
  unfold dispatched. batch_simpl. split_and!; [done|simpl; lia|done..].
Qed.

Lemma run_event_promise (options : Obj) (p : Promise) (ev : ChildEvent) :
  (run_event options p ev).2 =
    match completion ev with
    | Some v => settle p v
    | None => p
    end.
Proof. by destruct ev. Qed.

(** The call of [run] the generator is suspended on is as [run] left it. *)
Lemma awaited_run sched (b : Batch) (i : nat) (options : Obj) (p : Promise) :
  dispatched gopts commands sched b →
  b_procs b !! i = Some (MkProc options p) →
  first_completion i sched = None →
  p = (run options).2.
Proof.
  intros (_ & _ & Hprocs & _) Hi Hnone.
  rewrite Hprocs, list_lookup_imap in Hi.
  destruct (take _ commands !! i) as [cmd|]; [|done].
  unfold proc_at in Hi. rewrite Hnone in Hi. simplify_eq/=.
  by destruct ((run (resolvedOpts gopts cmd)).2).
Qed.

(** An event that settles nothing leaves the generator where it is. *)
Lemma seq_idle_inv sched (b : Batch) (i : nat) (ev : ChildEvent)
    (options : Obj) (p : Promise) :
  seq_inv gopts commands sched b →
  b_procs b !! i = Some (MkProc options p) →
  (run_event options p ev).2 = p →
  i < length (b_results b) ∨ completion ev = None →
  seq_inv gopts commands (sched ++ [(i, ev)])
    (MkBatch Sequential (b_globalOpts b)
             (<[i := MkProc options (run_event options p ev).2]> (b_procs b))
             (b_queue b) (b_results b) (b_outcome b)
             (b_trace b ++ (run_event options p ev).1)).
Proof.
  intros (Hmode & Hdisp & Hqueue & Hlen & Hres & Hnone & Hout) Hi Hsame Hev.
  pose proof (dispatched_event sched b i ev options p
                (b_queue b) (b_results b) (b_outcome b) Hdisp Hi) as Hdisp'.
  rewrite Hmode in Hdisp'.
  rewrite Hsame, list_insert_id in * by done.
  unfold seq_inv. batch_simpl. split_and!; try done.
  intros j Hj. rewrite first_completion_snoc, Hnone by done.
  unfold completion_of. cbn [fst snd].
  destruct (decide (i = j)) as [->|]; [|done].
  destruct Hev as [Hev|Hev]; [lia|done].
Qed.

Lemma seq_step_inv sched (b b' : Batch) (e : nat * ChildEvent) :
  seq_inv gopts commands sched b →
  step b e = Some b' →
  seq_inv gopts commands (sched ++ [e]) b'.
Proof.
  intros Hinv Hstep. destruct e as [i ev].
  apply step_Some in Hstep as (options & p & Hi & Hdel & ->).
  pose proof Hinv as (Hmode & Hdisp & Hqueue & Hlen & Hres & Hnone & Hout).
  rewrite Hmode. cbv zeta.
  apply lookup_lt_Some in Hi as Hlt.
  destruct (decide (i < length (b_results b))) as [Hik|Hik].
  - (* an earlier child: its promise is fulfilled already *)
    destruct (fulfilled_prefix _ _ i _ Hres Hik Hi) as [w Hw]. simpl in Hw.
    subst p. apply seq_idle_inv; [done..| |by left].
    rewrite run_event_promise. by destruct (completion ev).
  - (* the child the generator waits for, or has failed on *)
    assert (i = length (b_results b)) as -> by lia.
    assert (p = (run options).2) as Hp
      by (eapply awaited_run; [done..|apply Hnone; lia]).
    apply delivered_completion in Hdel as [Hpend|Hev].
    + rewrite Hpend in Hp. subst p.
      pose proof (λ q r o, dispatched_event sched b _ ev options Pending q r o
                             Hdisp Hi) as Hdisp'.
      rewrite Hmode in Hdisp'.
      rewrite run_event_promise.
      destruct (completion ev) as [v|] eqn:Hev; simpl.
      * assert ((run_event options Pending ev).2 = Fulfilled v) as Hv
          by (by rewrite run_event_promise, Hev).
        rewrite Hv in Hdisp'.
        apply seq_resume_inv; [done|apply Hdisp'|..]; batch_simpl.
        -- by rewrite length_insert.
        -- rewrite length_insert, length_app. simpl. lia.
        -- apply results_snoc; [lia|done].
        -- intros j Hj. rewrite length_app in Hj. simpl in Hj.
           rewrite first_completion_other by lia. apply Hnone. lia.
        -- rewrite Hout, decide_False by lia. by rewrite Hi.
      * assert ((run_event options Pending ev).2 = Pending) as Hv
          by (by rewrite run_event_promise, Hev).
        pose proof (seq_idle_inv sched b _ ev options Pending Hinv Hi Hv
                      (or_intror Hev)) as Hidle.
        by rewrite Hv in Hidle.
    + assert ((run_event options p ev).2 = p) as Hv
        by (by rewrite run_event_promise, Hev).
      pose proof (seq_idle_inv sched b _ ev options p Hinv Hi Hv
                    (or_intror Hev)) as Hidle.
      clear Hp. destruct p; [rewrite Hv in Hidle |- *|..]; exact Hidle.
Qed.

Lemma seq_reachable sched (b : Batch) :
  exec (seq_start gopts commands) sched = Some b →
  seq_inv gopts commands sched b.
Proof.
  revert b. induction sched as [|e sched IH] using rev_ind; intros b.
  - intros [= <-]. apply seq_start_inv.
  - rewrite exec_snoc.
    destruct (exec (seq_start gopts commands) sched) as [b0|]; [|done].
    intros Hstep. eapply seq_step_inv; [by apply IH | done].
Qed.

End Reachable.

(** *** Options *)

Lemma object_assign_lookup (a b : JsVal) (k : string) :
  object_assign ∅ [a; b] !! k =
    match own_props b !! k with
    | Some v => Some v
    | None => own_props a !! k
    end.
Proof.
  unfold object_assign. simpl. rewrite !lookup_union, lookup_empty.
  by destruct (own_props b !! k), (own_props a !! k).
Qed.

Lemma globalOpts_lookup (options : JsVal) (k : string) :
  globalOpts options !! k =
    match own_props options !! k with
    | Some v => Some v
    | None => defaultOpts !! k
    end.
Proof. apply object_assign_lookup. Qed.

Lemma resolvedOpts_lookup (gopts : Obj) (cmd : JsVal) (k : string) :
  resolvedOpts gopts cmd !! k =
    match own_props cmd !! k with
    | Some v => Some v
    | None => gopts !! k
    end.
Proof. apply object_assign_lookup. Qed.

(** *** The promise of a call of [run] after a schedule *)

Lemma proc_at_fulfilled (gopts : Obj) sched (i : nat) (cmd v : JsVal) :
  p_promise (proc_at gopts sched i cmd) = Fulfilled v
  ↔ listening (resolvedOpts gopts cmd) ∧ first_completion i sched = Some v.
Proof.
  rewrite <- run_pending_iff. unfold proc_at. simpl.
  destruct (run_promise (resolvedOpts gopts cmd)) as [Hr|[e Hr]]; rewrite Hr.
  - destruct (first_completion i sched); simpl.
    + split; [by intros [= ->]|by intros [_ [= ->]]].
    + split; [done|by intros [_ ?]].
  - simpl. split; [done|by intros [? _]].
Qed.

Lemma proc_at_rejected_iff (gopts : Obj) sched (i : nat) (cmd e : JsVal) :
  p_promise (proc_at gopts sched i cmd) = Rejected e
  ↔ (run (resolvedOpts gopts cmd)).2 = Rejected e.
Proof.
  unfold proc_at. simpl.
  destruct (run_promise (resolvedOpts gopts cmd)) as [Hr|[e' Hr]]; rewrite Hr.
  - by destruct (first_completion i sched).
  - done.
Qed.


(** *** [Promise.all] *)

Lemma all_values_Some (ps : list Promise) (vs : list JsVal) :
  all_values ps = Some vs ↔ ps = map Fulfilled vs.
Proof.
  unfold all_values. rewrite mapM_Some. split.
  - induction 1 as [|p v ps vs Hp _ IH]; [done|].
    destruct p; simplify_eq/=. by f_equal.
  - intros ->. induction vs; by constructor.
Qed.


Lemma first_rejection_fulfilled (vs : list JsVal) :
  first_rejection (map Fulfilled vs) = None.
Proof. unfold first_rejection. by induction vs. Qed.

Lemma first_rejection_Some (ps : list Promise) (e : JsVal) :
  first_rejection ps = Some e → ∃ i, ps !! i = Some (Rejected e).
Proof.
  unfold first_rejection. induction ps as [|p ps IH]; [done|].
  destruct p as [|v|e']; simpl.
  - intros [i Hi]%IH. by exists (S i).
  - intros [i Hi]%IH. by exists (S i).
  - intros [= ->]. by exists 0.
Qed.

Lemma promise_all_Fulfilled (ps : list Promise) (rs : JsVal) :
  promise_all ps = Fulfilled rs ↔ ∃ vs, rs = VArr vs ∧ ps = map Fulfilled vs.
Proof.
  unfold promise_all. split.
  - destruct (first_rejection ps); [done|].
    destruct (all_values ps) as [vs|] eqn:Hvs; [|done].
    intros [= <-]. exists vs. by apply all_values_Some in Hvs.
  - intros (vs & -> & ->). rewrite first_rejection_fulfilled.
    by rewrite (proj2 (all_values_Some _ vs)).
Qed.

Lemma promise_all_Rejected (ps : list Promise) (e : JsVal) :
  promise_all ps = Rejected e → ∃ i, ps !! i = Some (Rejected e).
Proof.
  unfold promise_all. destruct (first_rejection ps) as [e'|] eqn:He.
  - intros [= <-]. by apply first_rejection_Some.
  - by destruct (all_values ps).
Qed.

(** The promises of the calls of [run] for a list of commands are all
    fulfilled exactly when every call has set its child up and every child
    has reported its completion; the values are the completions, by
    position. *)
Lemma procs_fulfilled_iff (gopts : Obj) sched (commands vs : list JsVal) :
  map p_promise (imap (proc_at gopts sched) commands) = map Fulfilled vs
  ↔ length vs = length commands
    ∧ ∀ i cmd, commands !! i = Some cmd →
        listening (resolvedOpts gopts cmd) ∧ first_completion i sched = vs !! i.
Proof.
  split.
  - intros Heq. assert (length vs = length commands) as Hlen.
    { apply (f_equal length) in Heq. by rewrite !length_map, length_imap in Heq. }
    split; [done|]. intros i cmd Hi.
    apply (f_equal (.!! i)) in Heq.
    rewrite !list_lookup_fmap, list_lookup_imap, Hi in Heq. simpl in Heq.
    destruct (vs !! i) as [v|] eqn:Hv; [|done]. simplify_eq/=.
    by apply proc_at_fulfilled.
  - intros [Hlen Hall]. apply list_eq. intros i.
    rewrite !list_lookup_fmap, list_lookup_imap.
    destruct (commands !! i) as [cmd|] eqn:Hi; simpl.
    + destruct (Hall i cmd Hi) as [Hwf Hv].
      destruct (vs !! i) as [v|] eqn:Hvi.
      * simpl. f_equal. by apply proc_at_fulfilled.
      * apply lookup_ge_None in Hvi. apply lookup_lt_Some in Hi. lia.
    + apply lookup_ge_None in Hi. by rewrite lookup_ge_None_2 by lia.
Qed.

(** The rejections among the promises of the calls of [run] are those that
    [run] returned: no event adds or removes one. *)
Lemma omap_ext_lookup {A B C} (f : A → option C) (g : B → option C)
    (l : list A) (k : list B) :
  length l = length k →
  (∀ i x y, l !! i = Some x → k !! i = Some y → f x = g y) →
  omap f l = omap g k.
Proof.
  revert k. induction l as [|x l IH]; intros [|y k]; try done.
  simpl. intros [= Hlen] Hall.
  rewrite (Hall 0 x y eq_refl eq_refl).
  assert (omap f l = omap g k) as Hrec.
  { apply IH; [done|]. intros i x' y' Hx Hy. by apply (Hall (S i)). }
  destruct (g y); [f_equal|]; exact Hrec.
Qed.

Lemma first_rejection_procs (gopts : Obj) sched (commands : list JsVal) :
  first_rejection (map p_promise (imap (proc_at gopts sched) commands))
  = first_rejection (map (λ cmd, (run (resolvedOpts gopts cmd)).2) commands).
Proof.
  unfold first_rejection. f_equal. apply omap_ext_lookup.
  - by rewrite !length_map, length_imap.
  - intros i p q. rewrite !list_lookup_fmap, list_lookup_imap.
    destruct (commands !! i) as [cmd|]; [|done]. simpl.
    intros [= <-] [= <-]. unfold proc_at. simpl.
    destruct (run_promise (resolvedOpts gopts cmd)) as [Hr|[e Hr]]; rewrite Hr.
    + by destruct (first_completion i sched).
    + done.
Qed.

(** *** Outcome of a batch *)

Lemma par_outcome_fulfilled (gopts : Obj) (commands : list JsVal) sched
    (b : Batch) (rs : JsVal) :
  par_inv gopts commands sched b →
  b_outcome b = Fulfilled rs
  ↔ ∃ vs, rs = VArr vs ∧ length vs = length commands
          ∧ ∀ i cmd, commands !! i = Some cmd →
              listening (resolvedOpts gopts cmd)
              ∧ first_completion i sched = vs !! i.
Proof.
  intros (_ & (_ & _ & Hprocs & _) & Hlen & Hout).
  rewrite Hlen, firstn_all in Hprocs.
  rewrite Hout, Hprocs, promise_all_Fulfilled.
  by setoid_rewrite procs_fulfilled_iff.
Qed.

Lemma par_outcome_rejected (gopts : Obj) (commands : list JsVal) sched
    (b : Batch) (e : JsVal) :
  par_inv gopts commands sched b →
  b_outcome b = Rejected e →
  ∃ i cmd, commands !! i = Some cmd ∧ (run (resolvedOpts gopts cmd)).2 = Rejected e.
Proof.
  intros (_ & (_ & _ & Hprocs & _) & Hlen & Hout).
  rewrite Hlen, firstn_all in Hprocs.
  rewrite Hout, Hprocs. intros [i Hi]%promise_all_Rejected.
  rewrite list_lookup_fmap, list_lookup_imap in Hi.
  destruct (commands !! i) as [cmd|] eqn:Hcmd; [|done].
  simpl in Hi. injection Hi as Hi.
  apply proc_at_rejected_iff in Hi. by exists i, cmd.
Qed.



Lemma seq_outcome_rejected (gopts : Obj) (commands : list JsVal) sched
    (b : Batch) (e : JsVal) :
  seq_inv gopts commands sched b →
  b_outcome b = Rejected e →
  ∃ i cmd, commands !! i = Some cmd ∧ (run (resolvedOpts gopts cmd)).2 = Rejected e.
Proof.
  intros (_ & (_ & _ & Hprocs & _) & _ & _ & _ & _ & Hout). rewrite Hout.
  destruct (decide _); [done|].
  destruct (b_procs b !! length (b_results b)) as [[o [|v|e']]|] eqn:Hp; try done.
  intros [= ->]. rewrite Hprocs, list_lookup_imap in Hp.
  destruct (take _ commands !! _) as [cmd|] eqn:Hcmd; [|done].
  simpl in Hp.
  assert (p_promise (proc_at gopts sched (length (b_results b)) cmd)
          = Rejected e) as Hrej.
  { assert (proc_at gopts sched (length (b_results b)) cmd
            = MkProc o (Rejected e)) as Heq by congruence.
    by rewrite Heq. }
  apply lookup_take_Some in Hcmd as [Hcmd _].
  apply proc_at_rejected_iff in Hrej.
  by exists (length (b_results b)), cmd.
Qed.

(** *** From the call of [runMultiple] *)

Lemma select_mode_Parallel (gopts : Obj) :
  select_mode gopts = Parallel ↔ get gopts "mode" = VStr PARALLEL.
Proof.
  unfold select_mode. destruct (get gopts "mode") as [| | | |s| | | |]; try done.
  destruct (String.eqb s PARALLEL) eqn:Hs.
  - apply String.eqb_eq in Hs as ->. done.
  - apply String.eqb_neq in Hs. split; [done|]. by intros [= ->].
Qed.

Lemma select_mode_Sequential (gopts : Obj) :
  select_mode gopts = Sequential ↔ get gopts "mode" ≠ VStr PARALLEL.
Proof.
  rewrite <- select_mode_Parallel. by destruct (select_mode gopts).
Qed.

(** Every state a batch on well-shaped input reaches satisfies the invariant
    of its mode. *)
Lemma reachable_inv (input options : JsVal) (commands : list JsVal) sched
    (b : Batch) :
  normalize input = Some commands →
  exec (runMultiple input options) sched = Some b →
  match select_mode (globalOpts options) with
  | Parallel => par_inv (globalOpts options) commands sched b
  | Sequential => seq_inv (globalOpts options) commands sched b
  end.
Proof.
  unfold runMultiple. intros ->.
  destruct (select_mode (globalOpts options)).
  - apply seq_reachable.
  - apply par_reachable.
Qed.

Lemma reachable_dispatched (input options : JsVal) (commands : list JsVal) sched
    (b : Batch) :
  normalize input = Some commands →
  exec (runMultiple input options) sched = Some b →
  dispatched (globalOpts options) commands sched b.
Proof.
  intros Hn Hex. pose proof (reachable_inv _ _ _ _ _ Hn Hex) as Hinv.
  destruct (select_mode (globalOpts options)); by destruct Hinv as (_ & ? & _).
Qed.


(** *** The claims about the batch *)






(** C2. In parallel mode [run] is called for every command, in input order,
    before [runMultiple] returns: the trace at that point is the
    concatenation of the effects of these calls, and no process is spawned
    later.  Under every feasible schedule the batch promise is fulfilled if
    and only if every call of [run] left its promise pending and every child
    has reported its completion; the array it is fulfilled with holds, at
    each input position, the first completion payload of the child at that
    position, whatever the order of the events in the schedule. *)
Theorem parallel_dispatch_and_collection (input options : JsVal)
    (commands : list JsVal) (sched : list (nat * ChildEvent)) (b : Batch) :
  normalize input = Some commands →
  get (globalOpts options) "mode" = VStr PARALLEL →
  exec (runMultiple input options) sched = Some b →
  let gopts := globalOpts options in
  b_procs (runMultiple input options)
    = map (λ cmd, MkProc (resolvedOpts gopts cmd) (run (resolvedOpts gopts cmd)).2)
          commands
  ∧ b_trace (runMultiple input options)
    = concat (map (λ cmd, (run (resolvedOpts gopts cmd)).1) commands)
  ∧ spawns (b_trace b) = spawns (b_trace (runMultiple input options))
  ∧ (∀ rs, b_outcome b = Fulfilled rs
           ↔ ∃ vs, rs = VArr vs ∧ length vs = length commands
                   ∧ ∀ i cmd, commands !! i = Some cmd →
                       (run (resolvedOpts gopts cmd)).2 = Pending
                       ∧ first_completion i sched = vs !! i).
Proof.
  intros Hn Hmode%select_mode_Parallel Hex gopts.
  pose proof (reachable_inv _ _ _ _ _ Hn Hex) as Hinv.
  pose proof (reachable_inv input options commands [] _ Hn eq_refl) as Hinv0.
  rewrite Hmode in Hinv, Hinv0.
  unfold runMultiple in *. rewrite Hn, Hmode in *. fold gopts in Hinv, Hinv0 |- *.
  split_and!.
  - unfold par_start. batch_simpl. rewrite map_map. apply map_ext.
    intros cmd. by rewrite launch_eq, proc_at_nil.
  - unfold par_start. batch_simpl. rewrite map_map. f_equal. apply map_ext.
    intros cmd. by rewrite launch_eq.
  - destruct Hinv as (_ & (_ & _ & _ & Htr) & Hlen & _).
    destruct Hinv0 as (_ & (_ & _ & _ & Htr0) & Hlen0 & _).
    by rewrite Htr, Htr0, Hlen, Hlen0.
  - intros rs. rewrite (par_outcome_fulfilled _ _ _ _ _ Hinv).
    by setoid_rewrite run_pending_iff.
Qed.

(** C3. In sequential mode, in every state the batch reaches: with [k] the
    number of results accumulated, [run] has been called for the first
    [k + 1] commands and for no other (for all of them once [k] is their
    number), in input order; every command before the last one dispatched
    has had its promise resolved, by a completion of its child that is in
    the schedule, whether a closure with any exit code or an error; the
    results are these completion payloads in dispatch order; and the child
    of the last command dispatched has not completed.  As this holds after
    every prefix of a schedule, a command is never dispatched before the
    promise of its predecessor is resolved. *)
Theorem sequential_dispatch (input options : JsVal)
    (commands : list JsVal) (sched : list (nat * ChildEvent)) (b : Batch) :
  normalize input = Some commands →
  get (globalOpts options) "mode" ≠ VStr PARALLEL →
  exec (runMultiple input options) sched = Some b →
  let gopts := globalOpts options in
  let k := length (b_results b) in
  length (b_procs b) = S k `min` length commands
  ∧ map p_options (b_procs b)
    = map (resolvedOpts gopts) (take (length (b_procs b)) commands)
  ∧ spawns (b_trace b) = spawned gopts (take (length (b_procs b)) commands)
  ∧ (∀ i, S i < length (b_procs b) →
          ∃ v, first_completion i sched = Some v
               ∧ p_promise <$> b_procs b !! i = Some (Fulfilled v))
  ∧ (∀ i v, b_results b !! i = Some v → first_completion i sched = Some v)
  ∧ (∀ i, k ≤ i → first_completion i sched = None).
Proof.
  intros Hn Hmode%select_mode_Sequential Hex gopts k.
  pose proof (reachable_inv _ _ _ _ _ Hn Hex) as Hinv.
  rewrite Hmode in Hinv. fold gopts in Hinv.
  destruct Hinv as (_ & (_ & _ & Hprocs & Htr) & _ & Hlen & Hres & Hnone & _).
  assert (∀ i v, b_results b !! i = Some v →
            first_completion i sched = Some v
            ∧ p_promise <$> b_procs b !! i = Some (Fulfilled v)) as Hdone.
  { intros i v Hi. apply lookup_lt_Some in Hi as Hlt.
    apply (f_equal (.!! i)) in Hres.
    rewrite !list_lookup_fmap, lookup_take_lt, Hi in Hres by done.
    simpl in Hres. split; [|done].
    rewrite Hprocs, list_lookup_imap in Hres.
    destruct (take _ commands !! i) as [cmd|]; [|done].
    simpl in Hres. injection Hres as Hres. symmetry in Hres.
    by apply proc_at_fulfilled in Hres as [_ ?]. }
  split_and!; try done.
  - rewrite Hprocs at 1. apply list_eq. intros i.
    rewrite !list_lookup_fmap, list_lookup_imap.
    by destruct (take _ commands !! i).
  - intros i Hi. fold k in Hlen.
    destruct (lookup_lt_is_Some_2 (b_results b) i) as [v Hv]; [fold k; lia|].
    exists v. by apply Hdone.
  - intros i v Hi. by apply Hdone.
Qed.


Lemma run_no_token (options : Obj) (s : string) :
  get options "command" = VStr s →
  js_match (list_ascii_of_string s) = None →
  (run options).2 = Rejected TypeError ∧ spawns (run options).1 = [].
Proof.
  intros Hcmd Hs.
  assert ((run options).2 = Rejected TypeError ∧ spawns (run options).1 = [])
    as Hrej.
  { apply run_not_well_formed_promise.
    intros (_ & s' & file & args & Hcmd' & Htok).
    rewrite Hcmd in Hcmd'. injection Hcmd' as <-.
    unfold tokenize in Htok. by rewrite Hs in Htok. }
  split; [apply Hrej.. ]. 
Qed.

(** C7, as the code has it.  The input is rejected with the string
    [Invalid input] exactly when it is neither a string nor an object other
    than [null] (a number, a boolean, [null], [undefined], a function); then
    [run] is never called, nothing is spawned and no child event can follow.
    A command string without a token is not reported in that way: its call
    of [run] throws a [TypeError] before anything is spawned, and a batch
    made of that string alone is rejected with this [TypeError]. *)
Theorem invalid_input_rejection (input options : JsVal) :
  (normalize input = None
   ↔ match input with
     | VStr _ | VObj _ | VArr _ | VError _ => False
     | _ => True
     end)
  ∧ (b_outcome (runMultiple input options) = Rejected (VStr "Invalid input")
     ↔ normalize input = None)
  ∧ (normalize input = None →
       b_procs (runMultiple input options) = []
       ∧ b_trace (runMultiple input options) = []
       ∧ ∀ e sched, exec (runMultiple input options) (e :: sched) = None)
  ∧ (∀ o s, get o "command" = VStr s →
       js_match (list_ascii_of_string s) = None →
       (run o).2 = Rejected TypeError ∧ spawns (run o).1 = [])
  ∧ (∀ s, input = VStr s → js_match (list_ascii_of_string s) = None →
       b_outcome (runMultiple input options) = Rejected TypeError
       ∧ spawns (b_trace (runMultiple input options)) = []
       ∧ ∀ e sched, exec (runMultiple input options) (e :: sched) = None).
Proof.
  split_and!; [| | |apply run_no_token|].
  - unfold normalize.
    destruct input as [| |[]|n| | | | |]; simpl; rewrite ?andb_false_r; done.
  - split.
    + destruct (normalize input) as [commands|] eqn:Hn; [|done]. intros Hout.
      pose proof (reachable_inv input options commands [] _ Hn eq_refl) as Hinv.
      destruct (select_mode (globalOpts options)).
      * apply (seq_outcome_rejected _ _ _ _ _ Hinv) in Hout as (i & cmd & _ & Hr).
        by apply run_rejected_error in Hr as [name ?].
      * apply (par_outcome_rejected _ _ _ _ _ Hinv) in Hout as (i & cmd & _ & Hr).
        by apply run_rejected_error in Hr as [name ?].
    + unfold runMultiple. by intros ->.
  - unfold runMultiple. intros ->. split_and!; [done..|].
    by intros [i ev] sched.
  - intros s -> Hs.
    assert (normalize (VStr s) = Some [wrap (VStr s)]) as Hn by done.
    assert (get (resolvedOpts (globalOpts options) (wrap (VStr s))) "command"
            = VStr s) as Hcmd.
    { unfold get. rewrite resolvedOpts_lookup. simpl.
      by rewrite lookup_singleton_eq. }
    destruct (run_no_token _ s Hcmd Hs) as [Hrej Hsp].
    assert (listeners (resolvedOpts (globalOpts options) (wrap (VStr s)))
            = NoListeners) as Hnone.
    { apply run_not_well_formed.
      intros (_ & s' & file & args & Hcmd' & Htok).
      rewrite Hcmd in Hcmd'. injection Hcmd' as <-.
      unfold tokenize in Htok. by rewrite Hs in Htok. }
    unfold runMultiple. rewrite Hn.
    destruct (select_mode (globalOpts options)).
    + unfold seq_start, seq_resume. batch_simpl.
      rewrite launch_eq, proc_at_nil. batch_simpl. rewrite Hrej.
      split_and!; [done..|].
      intros [[|i] ev] sched; [|done]. cbn [exec step]. batch_simpl.
      cbn [app lookup list_lookup]. by rewrite Hnone.
    + unfold par_start. simpl map. rewrite launch_eq, proc_at_nil. batch_simpl.
      simpl concat. rewrite app_nil_r, Hrej.
      split_and!; [done..|].
      intros [[|i] ev] sched; [|done]. cbn [exec step]. batch_simpl.
      cbn [lookup list_lookup snd]. by rewrite Hnone.
Qed.

(** C10. The mode is chosen by strict comparison of the [mode] option with
    the string [parallel]: the batch is parallel exactly when the options of
    the caller carry that very string.  For any other value (a misspelling,
    another string, a value that is not a string, no value at all) the call
    of [runMultiple] is the sequential one: the value is not looked at again
    and no error is raised for it. *)
Theorem mode_selection (input options : JsVal) :
  (select_mode (globalOpts options) = Parallel
   ↔ own_props options !! "mode" = Some (VStr "parallel"))
  ∧ (own_props options !! "mode" ≠ Some (VStr "parallel") →
     runMultiple input options =
       match normalize input with
       | Some commands => seq_start (globalOpts options) commands
       | None =>
           MkBatch Sequential (globalOpts options) [] [] []
                   (Rejected (VStr "Invalid input")) []
       end).
Proof.
  assert (select_mode (globalOpts options) = Parallel
          ↔ own_props options !! "mode" = Some (VStr "parallel")) as Hmode.
  { rewrite select_mode_Parallel. unfold get. rewrite globalOpts_lookup.
    destruct (own_props options !! "mode") as [v|].
    - simpl. split; [by intros ->|by intros [= ->]].
    - by split. }
  split; [done|]. intros Hne. unfold runMultiple.
  destruct (select_mode (globalOpts options)); [done|].
  by destruct Hne, Hmode as [-> _].
Qed.

(** * Further properties *)

(** ** The tokenizer on particular command lines *)

Lemma space_not_dquote (c : ascii) : is_space c = true → is_dquote c = false.
Proof.
  intros Hc. destruct (is_dquote c) eqn:Hq; [|done].
  apply Ascii.eqb_eq in Hq as ->. done.
Qed.

Lemma plain_not_dquote (c : ascii) : is_plain c = true → is_dquote c = false.
Proof. unfold is_plain. by destruct (is_dquote c). Qed.

Lemma is_quoted_span_has_dquote (tok : list ascii) :
  is_quoted_span tok → ¬ Forall (λ c, is_dquote c = false) tok.
Proof. intros (body & -> & _) [H _]%Forall_cons. done. Qed.

Lemma Lexes_nil (s : list ascii) :
  Lexes s [] → Forall (λ c, is_plain c = false) s.
Proof.
  remember [] as toks eqn:Htoks. induction 1; try done.
  constructor; auto.
Qed.

Lemma Lexes_unquoted (s : list ascii) (toks : list (list ascii)) :
  Lexes s toks →
  Forall (λ c, is_dquote c = false) s →
  concat toks = List.filter is_plain s ∧ Forall is_run toks.
Proof.
  induction 1 as [|c s toks Hc _ _ IH|tok rest toks Hrun Hdel _ IH
                 |tok rest toks Hq _ _ IH]; intros Hs.
  - done.
  - apply Forall_cons in Hs as [_ Hs]. cbn [List.filter]. rewrite Hc. by apply IH.
  - apply Forall_app in Hs as [_ Hs]. destruct (IH Hs) as [Hcat Hruns].
    split; [|by constructor]. simpl. rewrite List.filter_app, Hcat. f_equal.
    destruct Hrun as [_ Hall]. clear -Hall.
    induction tok as [|c tok IHtok]; [done|].
    apply Forall_cons in Hall as [Hc Hall]. cbn [List.filter]. rewrite Hc.
    f_equal. auto.
  - apply Forall_app in Hs as [Hs _]. by apply is_quoted_span_has_dquote in Hq.
Qed.

Lemma words_from_run (tok cur rest : list ascii) :
  Forall (λ c, is_space c = false) tok →
  words_from cur (tok ++ rest) = words_from (cur ++ tok) rest.
Proof.
  intros Htok. revert cur. induction Htok as [|c tok Hc _ IH]; intros cur.
  - by rewrite app_nil_r.
  - cbn [app words_from]. rewrite Hc, IH, <- app_assoc. done.
Qed.

Lemma plain_not_space (c : ascii) : is_plain c = true → is_space c = false.
Proof. unfold is_plain. by destruct (is_dquote c), (is_space c). Qed.

Lemma match_here_space (c : ascii) (t : list ascii) :
  is_space c = true → match_here (c :: t) = None.
Proof.
  intros Hc. unfold match_here, is_plain. cbn [plain_run]. unfold is_plain.
  rewrite Hc, andb_false_r. by rewrite (space_not_dquote c Hc).
Qed.

(** Without quotes the scan splits the text at its white space. *)
Lemma scan_words (s : list ascii) :
  Forall (λ c, is_dquote c = false) s → scan 0 s = words s.
Proof.
  unfold words.
  induction s as [s IH] using (induction_ltof1 _ (@List.length ascii)).
  unfold ltof in IH. intros Hs. destruct s as [|c t]; [done|].
  apply Forall_cons in Hs as Hs'. destruct Hs' as [Hc Ht].
  rewrite scan_unfold. destruct (is_space c) eqn:Hsp.
  - rewrite match_here_space by done. cbn [words_from]. rewrite Hsp.
    apply IH; [simpl; lia|done].
  - assert (is_plain c = true) as Hp by (unfold is_plain; by rewrite Hc, Hsp).
    pose proof (plain_run_spec (c :: t)) as (Happ & Hall & Hdel).
    unfold match_here. cbn [plain_run] in *. rewrite Hp in *.
    destruct (plain_run t) as [tok rest]. cbn [fst snd] in *.
    injection Happ as ->. apply Forall_cons in Hall as [_ Hall].
    apply Forall_app in Ht as [_ Hrest].
    change (c :: tok ++ rest) with ((c :: tok) ++ rest).
    rewrite words_from_run.
    2:{ constructor; [done|]. eapply Forall_impl; [exact Hall|].
        apply plain_not_space. }
    cbn [app]. destruct rest as [|c' rest'].
    + done.
    + apply Forall_cons in Hrest as [Hc' Hrest']. simpl in Hdel.
      assert (is_space c' = true) as Hsp'.
      { unfold is_plain in Hdel. rewrite Hc' in Hdel.
        by destruct (is_space c'). }
      rewrite scan_unfold, match_here_space by done.
      cbn [words_from]. rewrite Hsp'. f_equal.
      apply IH; [rewrite !length_cons, length_app; simpl; lia|done].
Qed.

(** X1. On a command line without any double quote the tokens are the words
    between the white space, as a reader who splits the line at every
    stretch of white space finds them: each is a non-empty run of
    characters that are not white space, put together they are the command
    line with its white space removed, none is changed by the stripping of
    quotes, the first word is the executable and the others are its
    arguments. *)
Theorem unquoted_command_words (command : string) :
  Forall (λ c, is_dquote c = false) (list_ascii_of_string command) →
  let s := list_ascii_of_string command in
  let toks := scan 0 s in
  toks = words s
  ∧ concat toks = List.filter (λ c, negb (is_space c)) s
  ∧ Forall (λ tok, tok ≠ [] ∧ Forall (λ c, is_space c = false) tok) toks
  ∧ map strip_quotes toks = toks
  ∧ tokenize command =
      match words s with
      | [] => None
      | w :: ws => Some (string_of_list_ascii w, map string_of_list_ascii ws)
      end.
Proof.
  intros Hs s toks.
  destruct (Lexes_unquoted _ _ (scan_Lexes _) Hs) as [Hcat Hruns].
  fold s in Hcat, Hruns. fold toks in Hcat, Hruns.
  assert (map strip_quotes toks = toks) as Hstrip.
  { clear -Hruns. induction Hruns as [|tok toks Hrun _ IH]; [done|].
    simpl. by rewrite strip_quotes_run, IH. }
  split_and!.
  - by apply scan_words.
  - rewrite Hcat. clear -Hs. fold s in Hs.
    induction s as [|c s' IH]; [done|].
    apply Forall_cons in Hs as [Hc Hs]. simpl. unfold is_plain at 1.
    rewrite Hc. simpl. destruct (is_space c); simpl; rewrite IH; done.
  - eapply Forall_impl; [exact Hruns|]. intros tok [Hne Hall]. split; [done|].
    eapply Forall_impl; [exact Hall|]. apply plain_not_space.
  - done.
  - unfold tokenize, js_match. fold s. fold toks.
    rewrite <- (scan_words s Hs). fold toks.
    destruct toks as [|tok toks0]; [done|].
    simpl in Hstrip. injection Hstrip as Htok Htoks.
    rewrite Htok. f_equal. f_equal.
    rewrite <- Htoks at 2. by rewrite map_map.
Qed.

(** X2. A command line with at least one character that is neither white
    space nor a double quote always has a token, so its executable is
    defined; a command line of white space only (the empty one included) has
    none, which is the case where [match] returns [null]. *)
Theorem tokenize_defined (command : string) :
  (Exists (λ c, is_plain c = true) (list_ascii_of_string command) →
   is_Some (tokenize command))
  ∧ (Forall (λ c, is_space c = true) (list_ascii_of_string command) →
     tokenize command = None).
Proof.
  unfold tokenize, js_match. pose proof (scan_Lexes (list_ascii_of_string command)) as Hlex.
  split.
  - intros Hex. destruct (scan 0 _) as [|tok toks]; [|done].
    apply Lexes_nil in Hlex. apply Exists_exists in Hex as (c & Hin & Hc).
    rewrite Forall_forall in Hlex. specialize (Hlex c Hin). congruence.
  - intros Hall.
    destruct (Lexes_unquoted _ _ Hlex) as [Hcat Hruns].
    { eapply Forall_impl; [exact Hall|]. apply space_not_dquote. }
    destruct (scan 0 _) as [|tok toks]; [done|].
    apply Forall_cons in Hruns as [[Hne Hplain] _].
    destruct tok as [|c tok]; [done|]. apply Forall_cons in Hplain as [Hc _].
    assert (c ∈ List.filter is_plain (list_ascii_of_string command)) as Hin.
    { rewrite <- Hcat. simpl. left. }
    apply list_elem_of_In, List.filter_In in Hin as [Hin _].
    apply list_elem_of_In in Hin. rewrite Forall_forall in Hall.
    specialize (Hall c Hin). unfold is_plain in Hc. rewrite Hall in Hc.
    by destruct (is_dquote c).
Qed.

Lemma quoted_body_nonempty (body : list ascii) : quoted_body body → body ≠ [].
Proof. by destruct 1. Qed.

Lemma string_of_list_ascii_nonempty (l : list ascii) :
  l ≠ [] → string_of_list_ascii l ≠ EmptyString.
Proof. by destruct l. Qed.

Lemma strip_quotes_token_nonempty (tok : list ascii) :
  is_run tok ∨ is_quoted_span tok → strip_quotes tok ≠ [].
Proof.
  intros [Hrun|(body & -> & Hbody)].
  - rewrite strip_quotes_run by done. by destruct Hrun.
  - rewrite strip_quotes_span. by apply quoted_body_nonempty.
Qed.

(** X3. Neither the executable nor any argument handed to the spawn
    primitive is the empty string: an empty pair of quotes yields no
    argument at all. *)
Theorem tokens_nonempty (command file : string) (args : list string) :
  tokenize command = Some (file, args) →
  file ≠ EmptyString ∧ Forall (λ a, a ≠ EmptyString) args.
Proof.
  unfold tokenize, js_match.
  pose proof (Lexes_shape _ _ (scan_Lexes (list_ascii_of_string command))) as Hshape.
  destruct (scan 0 _) as [|tok toks]; [done|]. intros [= <- <-].
  apply Forall_cons in Hshape as [Htok Htoks]. split.
  - by apply string_of_list_ascii_nonempty, strip_quotes_token_nonempty.
  - apply Forall_fmap. eapply Forall_impl; [exact Htoks|]. intros t Ht. simpl.
    by apply string_of_list_ascii_nonempty, strip_quotes_token_nonempty.
Qed.

(** The matcher of a span stops at the first quote that no backslash
    precedes. *)
Lemma quoted_tail_passable (a rest : list ascii) (turned : bool) :
  passable a →
  quoted_tail turned (a ++ dquote :: rest) = Some (a ++ [dquote], rest).
Proof.
  intros (Hne & Hq & Hlast). revert turned.
  induction a as [|c a IH]; [done|]. intros turned.
  apply Forall_cons in Hq as [Hc Hq].
  destruct a as [|c' a].
  - assert (is_backslash c = false) as Hb.
    { destruct (is_backslash c) eqn:Hb; [|done].
      apply Ascii.eqb_eq in Hb as ->. done. }
    simpl. rewrite Hb, Hc. simpl. by destruct rest.
  - apply Forall_cons in Hq as Hq'. destruct Hq' as [Hc' _].
    cbn [app]. rewrite quoted_tail_eq. cbv beta iota zeta.
    rewrite Hc', andb_false_r, Hc.
    change (c' :: a ++ dquote :: rest) with ((c' :: a) ++ dquote :: rest).
    rewrite IH; [done|done|done|].
    by rewrite last_cons_cons in Hlast.
Qed.

Lemma forallb_plain (a : list ascii) :
  forallb is_plain a = true → Forall (λ c, is_plain c = true) a.
Proof.
  induction a as [|c a IH]; [done|]. simpl.
  intros [Hc Ha]%andb_prop. constructor; auto.
Qed.

Lemma match_here_rendered (a rest : list ascii) :
  passable a → delimiter_first rest →
  match_here (render_arg a ++ rest) = Some (render_arg a, rest).
Proof.
  intros Ha Hrest. unfold render_arg, match_here.
  destruct (forallb is_plain a) eqn:Hplain.
  - rewrite plain_run_app; [|by apply forallb_plain|done].
    destruct Ha as (Hne & _). by destruct a.
  - unfold quote_arg. cbn [app plain_run].
    replace (is_plain dquote) with false by done.
    replace (is_dquote dquote) with true by done.
    rewrite <- app_assoc. cbn [app].
    by rewrite quoted_tail_passable.
Qed.

Lemma scan_rendered (args : list (list ascii)) :
  Forall passable args →
  scan 0 (concat (map (λ a, space :: render_arg a) args)) = map render_arg args.
Proof.
  induction 1 as [|a args Ha _ IH]; [done|].
  cbn [map concat app]. rewrite scan_unfold.
  replace (match_here (space :: _)) with (@None (list ascii * list ascii)).
  2:{ unfold match_here. cbn [plain_run]. by replace (is_plain space) with false by done. }
  destruct (render_arg a ++ _) as [|c t] eqn:Hr.
  { destruct Ha as (Hne & _). unfold render_arg, quote_arg in Hr.
    destruct (forallb is_plain a), a; done. }
  rewrite scan_unfold, <- Hr, match_here_rendered, IH; [done|done|].
  by destruct args.
Qed.

Lemma strip_quotes_rendered (a : list ascii) :
  passable a → strip_quotes (render_arg a) = a.
Proof.
  intros (Hne & _). unfold render_arg.
  destruct (forallb is_plain a) eqn:Hplain.
  - apply strip_quotes_run. split; [done|]. by apply forallb_plain.
  - apply strip_quotes_span.
Qed.

(** X4. Round trip of a command line.  An executable made of plain
    characters followed by arguments, each written as it is when it is made
    of plain characters and between double quotes otherwise, and separated
    by single spaces, is tokenized into exactly that executable and those
    arguments, provided no argument is empty, holds a double quote or ends
    with a backslash. *)
Theorem command_line_round_trip (file : list ascii) (args : list (list ascii)) :
  is_run file →
  Forall passable args →
  tokenize (string_of_list_ascii (command_line file args))
  = Some (string_of_list_ascii file, map string_of_list_ascii args).
Proof.
  intros Hfile Hargs. unfold tokenize, js_match, command_line.
  rewrite list_ascii_of_string_of_list_ascii.
  destruct Hfile as [Hne Hplain]. destruct file as [|c file]; [done|].
  cbn [app]. rewrite scan_unfold.
  change (c :: file ++ ?r) with ((c :: file) ++ r).
  unfold match_here. rewrite plain_run_app; [|done|by destruct args].
  rewrite scan_rendered by done. f_equal. f_equal.
  - by rewrite strip_quotes_run.
  - rewrite map_map. clear -Hargs.
    induction Hargs as [|a args Ha _ IH]; [done|].
    simpl. by rewrite strip_quotes_rendered, IH.
Qed.

Lemma quoted_tail_unclosed (t : list ascii) (turned : bool) :
  Forall (λ c, is_dquote c = false) t → quoted_tail turned t = None.
Proof.
  intros Ht. revert turned. induction Ht as [|c t Hc Ht IH]; intros turned; [done|].
  rewrite quoted_tail_eq. cbv beta iota zeta. rewrite Hc, IH, andb_false_r.
  destruct Ht as [|c' t Hc' _]; [done|]. by rewrite Hc', andb_false_r.
Qed.

Lemma plain_run_app_unquoted (pre rest : list ascii) :
  delimiter_first rest →
  plain_run (pre ++ rest) = ((plain_run pre).1, (plain_run pre).2 ++ rest).
Proof.
  intros Hrest. induction pre as [|c pre IH]; cbn [app plain_run].
  - destruct rest as [|c rest]; [done|]. unfold delimiter_first in Hrest.
    cbn [plain_run]. by rewrite Hrest.
  - destruct (is_plain c); [|done]. rewrite IH.
    by destruct (plain_run pre).
Qed.

(** A stretch without quotes is tokenized on its own when what follows does
    not begin with a plain character. *)
Lemma scan_app_unquoted (pre rest : list ascii) :
  Forall (λ c, is_dquote c = false) pre →
  delimiter_first rest →
  scan 0 (pre ++ rest) = scan 0 pre ++ scan 0 rest.
Proof.
  intros Hpre Hrest.
  induction pre as [pre IH] using (induction_ltof1 _ (@List.length ascii)).
  unfold ltof in IH. destruct pre as [|c pre]; [done|].
  apply Forall_cons in Hpre as Hpre'. destruct Hpre' as [Hc Hq].
  cbn [app]. rewrite !scan_unfold.
  change (c :: pre ++ rest) with ((c :: pre) ++ rest).
  unfold match_here. rewrite plain_run_app_unquoted by done.
  pose proof (plain_run_spec (c :: pre)) as (Happ & Hall & _).
  destruct (plain_run (c :: pre)) as [[|c0 tok] pre'] eqn:Hrun; cbn [fst snd] in *.
  - cbn [app]. rewrite Hc. apply IH; [simpl; lia|done].
  - rewrite IH; [done| |].
    + apply (f_equal (@List.length ascii)) in Happ.
      rewrite length_app in Happ. simpl in *. lia.
    + rewrite Happ in Hpre. by apply Forall_app in Hpre as [_ ?].
Qed.

(** X17. A double quote that is never closed acts as a separator.  On a
    command line whose only double quote has no partner, the tokens are
    those of the text before the quote followed by those of the text after
    it, exactly as if the quote were a space: no error is raised and the
    quote is dropped. *)
Theorem unclosed_quote_is_a_space (pre post : list ascii) :
  Forall (λ c, is_dquote c = false) pre →
  Forall (λ c, is_dquote c = false) post →
  scan 0 (pre ++ dquote :: post) = scan 0 pre ++ scan 0 post
  ∧ tokenize (string_of_list_ascii (pre ++ dquote :: post))
    = tokenize (string_of_list_ascii (pre ++ space :: post)).
Proof.
  intros Hpre Hpost.
  assert (scan 0 (pre ++ dquote :: post) = scan 0 pre ++ scan 0 post) as Hq.
  { rewrite scan_app_unquoted by done. f_equal. rewrite scan_unfold.
    unfold match_here. cbn [plain_run].
    replace (is_plain dquote) with false by done.
    replace (is_dquote dquote) with true by done.
    by rewrite quoted_tail_unclosed. }
  assert (scan 0 (pre ++ space :: post) = scan 0 pre ++ scan 0 post) as Hs.
  { by rewrite scan_app_unquoted by done. }
  split; [done|]. unfold tokenize, js_match.
  by rewrite !list_ascii_of_string_of_list_ascii, Hq, Hs.
Qed.

(** ** One call of [run], further *)

(** X5. A call of [run] calls [spawn] at most once.  When its options are
    well formed it does so exactly once, with the tokenized command line and
    the allow-listed options, and what the host answers decides the rest:
    with a child that has both streams the promise is left pending and all
    the listeners are installed; with a child without [stdout] the promise
    is rejected with a [TypeError] and no listener is installed; with a
    child that has [stdout] but not [stderr] the promise is rejected with a
    [TypeError] and the [data] listener of [stdout] stays; when [spawn]
    throws, the promise is rejected with what it threw.  When the options
    are not well formed nothing is spawned, no listener is installed and the
    promise is rejected with a [TypeError]. *)
Theorem run_spawns_once (o : Obj) :
  (well_formed o →
   ∃ s file args,
     get o "command" = VStr s ∧ tokenize s = Some (file, args)
     ∧ spawns (run o).1 = [Spawn file args (spawnProcessOpts o)]
     ∧ ((run o).2, listeners o) =
         match host_spawn file args (spawnProcessOpts o) with
         | Child true true => (Pending, AllListeners)
         | Child true false => (Rejected TypeError, StdoutListener)
         | Child false _ => (Rejected TypeError, NoListeners)
         | SpawnThrows name => (Rejected (VError name), NoListeners)
         end)
  ∧ (¬ well_formed o →
     spawns (run o).1 = [] ∧ (run o).2 = Rejected TypeError
     ∧ listeners o = NoListeners).
Proof.
  split.
  - intros (s & file & args & Hcmd & Htok & Hrun & Hls)%run_well_formed.
    exists s, file, args. split_and!; [done..| |].
    + rewrite Hrun. cbn [fst]. by rewrite spawns_app, spawns_logged.
    + rewrite Hrun, Hls. cbn [snd].
      by destruct (host_spawn file args (spawnProcessOpts o)) as [?|[] []].
  - intros Hwf. by destruct (run_not_well_formed _ Hwf) as (? & ? & ?).
Qed.

Lemma run_effect_from (o : Obj) (e : Effect) :
  e ∈ (run o).1 → effect_from o e.
Proof.
  rewrite run_cases. unfold logged.
  destruct (js_truthy (get o "verbose")) eqn:Hv,
    (is_function (get o "logger")) eqn:Hl; simpl;
    destruct (get o "command") as [| | | |s| | | |] eqn:Hcmd; simpl;
    try destruct (tokenize s) as [[file args]|] eqn:Htok; simpl;
    rewrite ?elem_of_cons, ?elem_of_nil; intros He;
    repeat (destruct He as [->|He]); try done; simpl; eauto.
Qed.

Lemma run_event_effect_from (o : Obj) (p : Promise) (ev : ChildEvent) (e : Effect) :
  e ∈ (run_event o p ev).1 → effect_from o e.
Proof.
  destruct ev; simpl; unfold on_data, on_done;
    destruct (js_truthy (get o "verbose")) eqn:Hv;
    repeat match goal with
           | |- context [is_function ?f] => destruct (is_function f) eqn:?
           end;
    simpl; rewrite ?elem_of_cons, ?elem_of_nil; intros He;
    repeat (destruct He as [->|He]); try done; simpl;
    first [by left | right; split; [done|]; set_solver].
Qed.

Lemma run_event_effects_promise (o : Obj) (p p' : Promise) (ev : ChildEvent) :
  (run_event o p ev).1 = (run_event o p' ev).1.
Proof. by destruct ev. Qed.

(** ** The trace of a batch *)

Lemma exec_app (b : Batch) (sched sched' : list (nat * ChildEvent)) :
  exec b (sched ++ sched') =
    match exec b sched with
    | Some b' => exec b' sched'
    | None => None
    end.
Proof.
  revert b. induction sched as [|e sched IH]; intros b; [done|].
  simpl. destruct (step b e); [apply IH | done].
Qed.

Lemma seq_resume_trace (b : Batch) :
  b_trace (seq_resume b) =
    b_trace b ++ match b_queue b with
                 | [] => []
                 | cmd :: _ => (run (resolvedOpts (b_globalOpts b) cmd)).1
                 end.
Proof.
  unfold seq_resume. destruct (b_queue b) as [|cmd rest].
  - batch_simpl. by rewrite app_nil_r.
  - by rewrite launch_eq.
Qed.

Lemma elem_of_concat (x : Effect) (ls : list (list Effect)) :
  x ∈ concat ls → ∃ l, x ∈ l ∧ l ∈ ls.
Proof.
  induction ls as [|l ls IH]; simpl; [by rewrite elem_of_nil|].
  rewrite elem_of_app. intros [Hx|Hx].
  - exists l. split; [done|left].
  - destruct (IH Hx) as (l' & Hl' & Hin). exists l'. split; [done|by right].
Qed.

Lemma drop_head_elem_of (n : nat) (l rest : list JsVal) (x : JsVal) :
  drop n l = x :: rest → x ∈ l.
Proof.
  intros Hdrop. apply (list_elem_of_lookup_2 l n).
  by rewrite <- (Nat.add_0_r n), <- lookup_drop, Hdrop.
Qed.

Lemma start_trace (input options : JsVal) (commands : list JsVal) :
  normalize input = Some commands →
  Forall (λ e, ∃ cmd, cmd ∈ commands
                      ∧ e ∈ (run (resolvedOpts (globalOpts options) cmd)).1)
         (b_trace (runMultiple input options)).
Proof.
  intros Hn. unfold runMultiple. rewrite Hn.
  destruct (select_mode (globalOpts options)).
  - unfold seq_start. rewrite seq_resume_trace. batch_simpl.
    destruct commands as [|cmd rest]; [done|]. cbn [app].
    apply Forall_forall. intros e He. exists cmd. split; [left|done].
  - unfold par_start. batch_simpl. rewrite map_map.
    apply Forall_forall. intros e He.
    apply elem_of_concat in He as (l & He & Hl).
    apply list_elem_of_fmap in Hl as (cmd & -> & Hcmd).
    exists cmd. split; [done|]. by rewrite launch_eq in He.
Qed.

(** What one step adds to the trace: the effects of the listeners of the
    child, and in sequential mode possibly those of the next call of
    [run]. *)
Lemma step_trace (input options : JsVal) (commands : list JsVal)
    (sched : list (nat * ChildEvent)) (b b' : Batch) (e : nat * ChildEvent) :
  normalize input = Some commands →
  exec (runMultiple input options) sched = Some b →
  step b e = Some b' →
  ∃ cmd l,
    commands !! e.1 = Some cmd
    ∧ b_trace b' =
        b_trace b
        ++ (run_event (resolvedOpts (globalOpts options) cmd) Pending e.2).1 ++ l
    ∧ (l = []
       ∨ (b_mode b = Sequential
          ∧ ∃ cmd', cmd' ∈ commands
                    ∧ l = (run (resolvedOpts (globalOpts options) cmd')).1)).
Proof.
  intros Hn Hex Hstep. destruct e as [i ev].
  pose proof (reachable_inv _ _ _ _ _ Hn Hex) as Hinv.
  destruct (reachable_dispatched _ _ _ _ _ Hn Hex) as (Hg & _ & Hprocs & _).
  apply step_Some in Hstep as (o & p & Hi & _ & ->).
  rewrite Hprocs, list_lookup_imap in Hi.
  destruct (take _ commands !! i) as [cmd|] eqn:Hcmd; [|done].
  apply lookup_take_Some in Hcmd as [Hcmd _].
  assert (o = resolvedOpts (globalOpts options) cmd) as ->.
  { simpl in Hi. unfold proc_at in Hi. by injection Hi as <- _. }
  exists cmd. cbv zeta. cbn [fst snd].
  rewrite (run_event_effects_promise _ Pending p).
  assert (∀ m q r out p',
            ∃ l, commands !! i = Some cmd
                 ∧ b_trace (MkBatch m (b_globalOpts b)
                              (<[i := MkProc (resolvedOpts (globalOpts options) cmd) p']>
                                 (b_procs b)) q r out
                              (b_trace b
                               ++ (run_event (resolvedOpts (globalOpts options) cmd)
                                     p ev).1))
                   = b_trace b
                     ++ (run_event (resolvedOpts (globalOpts options) cmd) p ev).1 ++ l
                 ∧ (l = []
                    ∨ (b_mode b = Sequential
                       ∧ ∃ cmd', cmd' ∈ commands
                                 ∧ l = (run (resolvedOpts (globalOpts options) cmd')).1)))
    as Hsame.
  { intros m q r out p'. exists []. batch_simpl. rewrite app_nil_r. auto. }
  destruct (select_mode (globalOpts options)).
  - destruct Hinv as (Hmode & _ & Hqueue & _). rewrite Hmode in Hsame |- *.
    destruct p as [|w|err]; [|apply Hsame..].
    destruct (run_event _ Pending ev).2 as [|v|err] eqn:Hev;
      [apply Hsame| |apply Hsame].
    rewrite seq_resume_trace. batch_simpl. rewrite Hg, Hqueue.
    destruct (drop _ commands) as [|cmd' rest] eqn:Hdrop.
    + exists []. rewrite !app_nil_r. auto.
    + eexists. split; [done|]. split; [by rewrite app_assoc|].
      right. split; [done|]. exists cmd'. split; [|done].
      by eapply drop_head_elem_of.
  - destruct Hinv as (Hmode & _). rewrite Hmode in Hsame |- *. apply Hsame.
Qed.

(** Every effect in the trace was produced by the call of [run] for one of
    the commands or by the listeners of that call. *)
Lemma trace_origin (input options : JsVal) (commands : list JsVal)
    (sched : list (nat * ChildEvent)) (b : Batch) :
  normalize input = Some commands →
  exec (runMultiple input options) sched = Some b →
  Forall (λ e, ∃ cmd,
            cmd ∈ commands
            ∧ (e ∈ (run (resolvedOpts (globalOpts options) cmd)).1
               ∨ ∃ ev, e ∈ (run_event (resolvedOpts (globalOpts options) cmd)
                              Pending ev).1))
         (b_trace b).
Proof.
  intros Hn. revert b. induction sched as [|e sched IH] using rev_ind; intros b.
  - intros [= <-]. eapply Forall_impl; [by apply start_trace|].
    intros e (cmd & Hcmd & He). exists cmd. auto.
  - rewrite exec_snoc.
    destruct (exec (runMultiple input options) sched) as [b0|] eqn:Hex; [|done].
    intros Hstep.
    destruct (step_trace _ _ _ _ _ _ _ Hn Hex Hstep)
      as (cmd & l & Hcmd & -> & Hl).
    rewrite !Forall_app. split_and!.
    + by apply IH.
    + apply Forall_forall. intros x Hx. exists cmd.
      split; [by eapply list_elem_of_lookup_2|]. right. by exists e.2.
    + destruct Hl as [->|(_ & cmd' & Hcmd' & ->)]; [done|].
      apply Forall_forall. intros x Hx. exists cmd'. auto.
Qed.

(** X6. Nothing else is ever spawned or called.  Every effect in the trace
    of a batch, in either mode and after any schedule, comes from one of the
    input commands: a spawn is the tokenized command line of that command
    with its allow-listed options; a call is a call of its logger, and then
    the command is verbose, or of its [onData], [onError] or [onDone], and
    then the value called is a function. *)
Theorem trace_provenance (input options : JsVal) (commands : list JsVal)
    (sched : list (nat * ChildEvent)) (b : Batch) :
  normalize input = Some commands →
  exec (runMultiple input options) sched = Some b →
  Forall (λ e, ∃ cmd,
            cmd ∈ commands
            ∧ let o := resolvedOpts (globalOpts options) cmd in
              match e with
              | Spawn file args so =>
                  ∃ s, get o "command" = VStr s ∧ tokenize s = Some (file, args)
                       ∧ so = spawnProcessOpts o
              | Call f _ =>
                  (js_truthy (get o "verbose") = true ∧ f = get o "logger")
                  ∨ (is_function f = true
                     ∧ f ∈ [get o "onData"; get o "onError"; get o "onDone"])
              end)
         (b_trace b).
Proof.
  intros Hn Hex. eapply Forall_impl; [by eapply trace_origin|].
  intros e (cmd & Hcmd & Horigin). exists cmd. split; [done|].
  change (effect_from (resolvedOpts (globalOpts options) cmd) e).
  destruct Horigin as [Hrun|[ev Hev]].
  - by apply run_effect_from.
  - by eapply run_event_effect_from.
Qed.

(** X7. Silent by default.  When no command is verbose and none has a
    function for [onData], [onError] or [onDone] (as with string commands and
    no options), the batch calls nothing at all: whatever the children do,
    the trace holds calls of the spawn primitive only. *)
Theorem quiet_batch_calls_nothing (input options : JsVal) (commands : list JsVal)
    (sched : list (nat * ChildEvent)) (b : Batch) :
  normalize input = Some commands →
  Forall (λ cmd, quiet (resolvedOpts (globalOpts options) cmd)) commands →
  exec (runMultiple input options) sched = Some b →
  calls (b_trace b) = [] ∧ spawns (b_trace b) = b_trace b.
Proof.
  intros Hn Hquiet Hex.
  assert (Forall (λ e, is_spawn e = true) (b_trace b)) as Hall.
  { eapply Forall_impl; [by eapply trace_origin|].
    intros [f args|file args so] (cmd & Hcmd & Horigin); [|done].
    rewrite Forall_forall in Hquiet.
    destruct (Hquiet cmd Hcmd) as (Hv & Hd & Herr & Hdone).
    assert (effect_from (resolvedOpts (globalOpts options) cmd) (Call f args)) as He.
    { destruct Horigin as [Hrun|[ev Hev]];
        [by apply run_effect_from|by eapply run_event_effect_from]. }
    destruct He as [[Hverb _]|[Hf Hin]]; [congruence|].
    rewrite !elem_of_cons, elem_of_nil in Hin.
    destruct Hin as [->|[->|[->|[]]]]; congruence. }
  clear -Hall. induction Hall as [|e l He _ [IH1 IH2]]; [done|].
  destruct e; [done|]. unfold calls, spawns in *. simpl. by rewrite IH1, IH2.
Qed.

(** X8. In parallel mode the trace after a schedule is the trace of the
    dispatch followed by the effects of the listeners for each event, in
    the order of delivery: no chunk is dropped, reordered or buffered, and
    the events of one child keep their order among the events of the
    others. *)
Theorem parallel_trace (input options : JsVal) (commands : list JsVal)
    (sched : list (nat * ChildEvent)) (b : Batch) :
  normalize input = Some commands →
  get (globalOpts options) "mode" = VStr PARALLEL →
  exec (runMultiple input options) sched = Some b →
  b_trace b =
    concat (map (λ cmd, (run (resolvedOpts (globalOpts options) cmd)).1) commands)
    ++ concat (map (event_effects (globalOpts options) commands) sched).
Proof.
  intros Hn Hmode%select_mode_Parallel. revert b.
  induction sched as [|e sched IH] using rev_ind; intros b.
  - intros [= <-]. unfold runMultiple. rewrite Hn, Hmode. unfold par_start.
    batch_simpl. rewrite map_map, app_nil_r. f_equal. apply map_ext.
    intros cmd. by rewrite launch_eq.
  - rewrite exec_snoc.
    destruct (exec (runMultiple input options) sched) as [b0|] eqn:Hex; [|done].
    intros Hstep.
    destruct (step_trace _ _ _ _ _ _ _ Hn Hex Hstep)
      as (cmd & l & Hcmd & -> & Hl).
    pose proof (reachable_inv _ _ _ _ _ Hn Hex) as Hinv.
    rewrite Hmode in Hinv. destruct Hinv as (Hpar & _).
    destruct Hl as [->|(Hseq & _)]; [|congruence].
    rewrite (IH b0 eq_refl), map_app, concat_app, app_nil_r, <- app_assoc.
    f_equal. f_equal. simpl. unfold event_effects. by rewrite Hcmd, app_nil_r.
Qed.

(** ** A sequential batch as the composition of its commands *)

Lemma listen_app (o : Obj) (p : Promise) (evs evs' : list ChildEvent) :
  (listen o p (evs ++ evs')).1
  = (listen o p evs).1 ++ (listen o (listen o p evs).2 evs').1.
Proof.
  revert p. induction evs as [|ev evs IH]; intros p; [done|].
  cbn [app listen]. destruct (run_event o p ev) as [l p'].
  specialize (IH p'). destruct (listen o p' (evs ++ evs')) as [l1 p1].
  destruct (listen o p' evs) as [l2 p2]. simpl in *.
  destruct (listen o p2 evs') as [l3 p3]. simpl in *.
  by rewrite IH, app_assoc.
Qed.

Lemma listen_output (o : Obj) (p : Promise) (evs : list ChildEvent) :
  Forall (λ ev, completion ev = None) evs → (listen o p evs).2 = p.
Proof.
  induction 1 as [|ev evs Hev _ IH]; [done|]. cbn [listen].
  destruct (run_event o p ev) as [l p'] eqn:Hrun.
  assert (p' = p) as -> by (destruct ev; by simplify_eq/=).
  destruct (listen o p evs) as [l' p'']. by simpl in *.
Qed.

Lemma in_turn_cons (n : nat) (j : Job) (jobs : list Job) :
  in_turn n (j :: jobs) = map (pair n) (job_events j) ++ in_turn (S n) jobs.
Proof.
  unfold in_turn. rewrite imap_cons. cbn [concat]. rewrite Nat.add_0_r.
  f_equal. f_equal. apply imap_ext. intros k j' _. simpl.
  by rewrite Nat.add_succ_r.
Qed.

(** While a child only writes, the batch stays as it is and the trace
    grows. *)
Lemma exec_output (g : Obj) (procs : list Proc) (q r : list JsVal)
    (out : Promise) (n : nat) (o : Obj) (outs : list ChildEvent) :
  procs !! n = Some (MkProc o Pending) →
  listeners o = AllListeners →
  Forall (λ ev, completion ev = None) outs →
  ∀ tr,
    exec (MkBatch Sequential g procs q r out tr) (map (pair n) outs)
    = Some (MkBatch Sequential g procs q r out (tr ++ (listen o Pending outs).1)).
Proof.
  intros Hn Hls. induction 1 as [|ev outs Hev Houts IH]; intros tr.
  - simpl. by rewrite app_nil_r.
  - cbn [map exec step]. batch_simpl. rewrite Hn, Hls. cbn [delivered].
    cbn [listen].
    destruct (run_event o Pending ev) as [l p'] eqn:Hrun.
    assert (p' = Pending) as -> by (destruct ev; by simplify_eq/=).
    rewrite list_insert_id by done. rewrite IH.
    destruct (listen o Pending outs) as [l' p'']. simpl.
    by rewrite app_assoc.
Qed.

Lemma seq_jobs (g : Obj) (jobs : list Job) :
  Forall (valid_job g) jobs →
  ∀ procs results trace,
    exec (seq_resume (MkBatch Sequential g procs (map j_cmd jobs) results
                              Pending trace))
         (in_turn (length procs) jobs)
    = Some (MkBatch Sequential g
              (procs ++ map (λ j, MkProc (resolvedOpts g (j_cmd j))
                                         (Fulfilled (job_payload j))) jobs)
              [] (results ++ map job_payload jobs)
              (Fulfilled (VArr (results ++ map job_payload jobs)))
              (trace ++ concat (map (job_trace g) jobs))).
Proof.
  induction 1 as [|j jobs (Hwf & Hout & [v Hv]) _ IH]; intros procs results trace.
  - unfold seq_resume. batch_simpl. cbn [map concat in_turn imap exec].
    by rewrite !app_nil_r.
  - apply run_pending_iff in Hwf as Hpend.
    apply listeners_all_iff in Hpend as Hls.
    unfold seq_resume at 1. batch_simpl. cbn [map].
    rewrite launch_eq, proc_at_nil. batch_simpl.
    rewrite in_turn_cons. unfold job_events at 1. rewrite map_app, !exec_app.
    set (o := resolvedOpts g (j_cmd j)) in *.
    rewrite Hpend.
    rewrite (exec_output _ _ _ _ _ (length procs) o)
      by (done || by rewrite lookup_app_r, Nat.sub_diag).
    cbn [map exec step]. batch_simpl.
    rewrite lookup_app_r, Nat.sub_diag by done. cbn [lookup list_lookup].
    rewrite Hls. cbn [delivered].
    assert (run_event o Pending (j_end j)
            = ((run_event o Pending (j_end j)).1, Fulfilled v)) as Hfin.
    { destruct (j_end j); by simplify_eq/=. }
    rewrite Hfin.
    rewrite insert_app_r_alt, Nat.sub_diag by done. cbn [insert list_insert].
    specialize (IH (procs ++ [MkProc o (Fulfilled v)]) (results ++ [v])).
    rewrite length_app in IH. cbn [length] in IH. rewrite Nat.add_1_r in IH.
    rewrite IH. f_equal.
    assert (job_payload j = v) as Hpay by (unfold job_payload; by rewrite Hv).
    cbn [map concat]. rewrite Hpay, <- !app_assoc. cbn [app].
    f_equal. f_equal. unfold job_trace, job_events. fold o.
    rewrite listen_app, listen_output by done.
    cbn [listen]. rewrite Hfin. cbn [fst snd].
    by rewrite app_nil_r, <- !app_assoc.
Qed.

(** X9. A sequential batch is the composition of its commands.  When every
    call of [run] sets its child up (the command is well formed and the
    host gives back a child with both streams) and the children run in
    turn, each writing its chunks and then ending with a closure or an
    error, the schedule is feasible, the trace of the batch is the concatenation, in input order,
    of what each command does when it runs alone (the effects of its call of
    [run], then those of its listeners), and the batch resolves with the
    payloads of the ending events in input order. *)
Theorem sequential_composition (input options : JsVal) (jobs : list Job) :
  normalize input = Some (map j_cmd jobs) →
  get (globalOpts options) "mode" ≠ VStr PARALLEL →
  Forall (valid_job (globalOpts options)) jobs →
  ∃ b, exec (runMultiple input options) (in_turn 0 jobs) = Some b
       ∧ b_trace b = concat (map (job_trace (globalOpts options)) jobs)
       ∧ b_outcome b = Fulfilled (VArr (map job_payload jobs)).
Proof.
  intros Hn Hmode%select_mode_Sequential Hjobs.
  unfold runMultiple. rewrite Hn, Hmode. unfold seq_start.
  pose proof (seq_jobs _ _ Hjobs [] [] []) as Hex. cbn [length app] in Hex.
  rewrite Hex. eexists. split; [done|]. by batch_simpl.
Qed.

(** ** A command that is not well formed *)

Lemma first_rejection_is_Some (ps : list Promise) (i : nat) (e : JsVal) :
  ps !! i = Some (Rejected e) → is_Some (first_rejection ps).
Proof.
  unfold first_rejection. revert i.
  induction ps as [|p ps IH]; intros i; [done|].
  destruct i as [|i]; simpl.
  - by intros [= ->].
  - intros Hi. destruct p; simpl; eauto.
Qed.

(** X10. In sequential mode a command that is not well formed stops the
    batch.  In every state the batch reaches, [run] has been called for no
    command after it, nothing has been spawned for it or for a later
    command, no more results than the commands before it have been
    accumulated, and once these results are all there the batch is rejected
    with a [TypeError]. *)
Theorem sequential_stops_at_malformed (input options : JsVal)
    (commands : list JsVal) (sched : list (nat * ChildEvent)) (b : Batch)
    (j : nat) (cmd : JsVal) :
  normalize input = Some commands →
  get (globalOpts options) "mode" ≠ VStr PARALLEL →
  commands !! j = Some cmd →
  ¬ well_formed (resolvedOpts (globalOpts options) cmd) →
  exec (runMultiple input options) sched = Some b →
  length (b_procs b) ≤ S j
  ∧ length (b_results b) ≤ j
  ∧ (∃ m, m ≤ j ∧ spawns (b_trace b) = spawned (globalOpts options) (take m commands))
  ∧ (length (b_results b) = j → b_outcome b = Rejected TypeError).
Proof.
  intros Hn Hmode%select_mode_Sequential Hj Hwf Hex.
  pose proof (reachable_inv _ _ _ _ _ Hn Hex) as Hinv. rewrite Hmode in Hinv.
  destruct Hinv as (_ & (_ & _ & Hprocs & Htr) & _ & Hlen & Hres & _ & Hout).
  apply lookup_lt_Some in Hj as Hjn.
  assert (length (b_results b) ≤ j) as Hk.
  { destruct (decide (length (b_results b) ≤ j)) as [|Hgt]; [done|].
    assert (j < length (b_procs b)) as Hjm by lia.
    assert (b_procs b !! j
            = Some (proc_at (globalOpts options) sched j cmd)) as Hp.
    { rewrite Hprocs, list_lookup_imap, lookup_take_lt, Hj by done. done. }
    destruct (fulfilled_prefix _ _ j _ Hres ltac:(lia) Hp) as [v Hv].
    by apply proc_at_fulfilled in Hv as [?%listening_well_formed _]. }
  destruct (run_not_well_formed_promise _ Hwf) as [Hrej Hnospawn].
  split_and!; [lia|done| |].
  - destruct (decide (length (b_procs b) ≤ j)) as [Hle|Hgt].
    + exists (length (b_procs b)). by split.
    + exists j. split; [done|]. rewrite Htr.
      replace (length (b_procs b)) with (S j) by lia.
      erewrite take_S_r by done. rewrite spawned_snoc.
      by rewrite Hnospawn, app_nil_r.
  - intros Hkj. rewrite Hout, Hkj, decide_False by lia.
    rewrite Hprocs, list_lookup_imap, lookup_take_lt, Hj by lia. simpl.
    unfold proc_at. by rewrite Hrej.
Qed.

Lemma first_rejection_first (ps : list Promise) (j : nat) (e : JsVal) :
  ps !! j = Some (Rejected e) →
  (∀ i p, i < j → ps !! i = Some p → p = Pending) →
  first_rejection ps = Some e.
Proof.
  unfold first_rejection. revert j.
  induction ps as [|p ps IH]; intros j; [done|].
  destruct j as [|j]; simpl.
  - by intros [= ->].
  - intros Hj Hbefore. rewrite (Hbefore 0 p) by (done || lia). simpl.
    apply (IH j Hj). intros i q Hi Hq. apply (Hbefore (S i)); [lia|done].
Qed.

Lemma promise_all_rejection (ps : list Promise) (e : JsVal) :
  first_rejection ps = Some e → promise_all ps = Rejected e.
Proof. unfold promise_all. by intros ->. Qed.

(** X11. In parallel mode a command whose call of [run] is rejected (it is
    not well formed, [spawn] throws for it, or its child lacks a stream)
    fails the batch at once and for good, without holding back the others:
    in every state the batch reaches, the batch promise is rejected, with
    the same exception as when [runMultiple] returned, whatever the children
    report; that exception is the one of this command when no command before
    it is rejected, so a [TypeError] for a command that is not well formed;
    and [run] has been called for all the commands, in input order. *)
Theorem parallel_rejects_at_once (input options : JsVal)
    (commands : list JsVal) (sched : list (nat * ChildEvent)) (b : Batch)
    (j : nat) (cmd : JsVal) (e : JsVal) :
  normalize input = Some commands →
  get (globalOpts options) "mode" = VStr PARALLEL →
  commands !! j = Some cmd →
  (run (resolvedOpts (globalOpts options) cmd)).2 = Rejected e →
  exec (runMultiple input options) sched = Some b →
  (∃ e', b_outcome b = Rejected e'
         ∧ b_outcome (runMultiple input options) = Rejected e')
  ∧ ((∀ i c, i < j → commands !! i = Some c →
        (run (resolvedOpts (globalOpts options) c)).2 = Pending) →
     b_outcome b = Rejected e)
  ∧ (¬ well_formed (resolvedOpts (globalOpts options) cmd) → e = TypeError)
  ∧ length (b_procs b) = length commands
  ∧ spawns (b_trace b) = spawned (globalOpts options) commands.
Proof.
  intros Hn Hmode%select_mode_Parallel Hj Hrej Hex.
  pose proof (reachable_inv _ _ _ _ _ Hn Hex) as Hinv.
  pose proof (reachable_inv input options commands [] _ Hn eq_refl) as Hinv0.
  rewrite Hmode in Hinv, Hinv0.
  destruct Hinv as (_ & (_ & _ & Hprocs & Htr) & Hlen & Hout).
  destruct Hinv0 as (_ & (_ & _ & Hprocs0 & _) & Hlen0 & Hout0).
  rewrite Hlen, firstn_all in Hprocs, Htr. rewrite Hlen0, firstn_all in Hprocs0.
  set (ps := map (λ c, (run (resolvedOpts (globalOpts options) c)).2) commands).
  assert (ps !! j = Some (Rejected e)) as Hpj.
  { unfold ps. by rewrite list_lookup_fmap, Hj, <- Hrej. }
  split_and!; [| | |done..].
  - destruct (first_rejection_is_Some _ _ _ Hpj) as [e' He'].
    exists e'. rewrite Hout, Hout0, Hprocs, Hprocs0.
    split; apply promise_all_rejection; by rewrite first_rejection_procs.
  - intros Hbefore. rewrite Hout, Hprocs. apply promise_all_rejection.
    rewrite first_rejection_procs. apply (first_rejection_first _ j); [done|].
    intros i p Hi. unfold ps. rewrite list_lookup_fmap.
    destruct (commands !! i) as [c|] eqn:Hc; [|done].
    intros [= <-]. by apply (Hbefore i).
  - intros [Hr _]%run_not_well_formed_promise. congruence.
Qed.

(** ** The shape of the input *)

Lemma normalize_objects (input : JsVal) (commands : list JsVal) :
  normalize input = Some commands →
  Forall (λ cmd, is_object cmd = true) commands.
Proof.
  unfold normalize.
  destruct input as [| |[]|n|s|f|e|m|items]; simpl; rewrite ?andb_false_r;
    intros [= <-]; repeat constructor.
  apply Forall_fmap, Forall_forall. intros cmd _. simpl.
  by destruct (is_object cmd) eqn:Hobj.
Qed.

(** X12. Normalisation is idempotent, and the three ways of writing a batch
    are one: the normalised commands are all objects, normalising their
    array gives them back, and [runMultiple] on any accepted input is
    [runMultiple] on the array of its normalised commands; so a string, the
    array holding that string, the descriptor with that string as its
    command and the array holding that descriptor start the same batch. *)
Theorem normalize_idempotent (input options : JsVal) (commands : list JsVal) :
  normalize input = Some commands →
  Forall (λ cmd, is_object cmd = true) commands
  ∧ normalize (VArr commands) = Some commands
  ∧ runMultiple input options = runMultiple (VArr commands) options.
Proof.
  intros Hn. pose proof (normalize_objects _ _ Hn) as Hobj.
  assert (normalize (VArr commands) = Some commands) as Hidem.
  { unfold normalize. simpl. f_equal. clear Hn.
    induction Hobj as [|cmd l Hcmd _ IH]; [done|]. simpl. by rewrite Hcmd, IH. }
  split_and!; [done..|]. unfold runMultiple. by rewrite Hn, Hidem.
Qed.

(** X13. The empty batch.  Whatever the options and the mode, [run] on an
    empty array resolves at once with an empty array, calls and spawns
    nothing, and no child event can follow. *)
Theorem empty_batch (options : JsVal) :
  b_outcome (runMultiple (VArr []) options) = Fulfilled (VArr [])
  ∧ b_trace (runMultiple (VArr []) options) = []
  ∧ b_procs (runMultiple (VArr []) options) = []
  ∧ ∀ e sched, exec (runMultiple (VArr []) options) (e :: sched) = None.
Proof.
  unfold runMultiple. simpl normalize. cbv iota.
  destruct (select_mode (globalOpts options)); split_and!; try done;
    by intros [i ev] sched.
Qed.

(** ** The batch promise settles once *)

Lemma seq_resume_outcome (b : Batch) :
  b_mode (seq_resume b) = b_mode b
  ∧ (b_outcome b ≠ Pending → b_outcome (seq_resume b) = b_outcome b).
Proof.
  unfold seq_resume. destruct (b_queue b) as [|cmd rest].
  - batch_simpl. split; [done|]. by destruct (b_outcome b).
  - destruct (launch (b_globalOpts b) cmd) as [l [o p]]. batch_simpl.
    split; [done|]. destruct p; try done. by destruct (b_outcome b).
Qed.

Lemma seq_step_outcome (b b' : Batch) (e : nat * ChildEvent) :
  b_mode b = Sequential →
  step b e = Some b' →
  b_mode b' = Sequential
  ∧ (b_outcome b ≠ Pending → b_outcome b' = b_outcome b).
Proof.
  intros Hmode Hstep. destruct e as [i ev].
  apply step_Some in Hstep as (o & p & _ & _ & ->). rewrite Hmode. cbv zeta.
  destruct p as [|w|err]; try done.
  destruct (run_event o Pending ev).2 as [|v|err]; try done.
  destruct (seq_resume_outcome
              (MkBatch Sequential (b_globalOpts b)
                 (<[i := MkProc o (Fulfilled v)]> (b_procs b)) (b_queue b)
                 (b_results b ++ [v]) (b_outcome b)
                 (b_trace b ++ (run_event o Pending ev).1))) as [Hm Ho].
  done.
Qed.

Lemma seq_exec_outcome (sched : list (nat * ChildEvent)) (b b' : Batch) :
  b_mode b = Sequential →
  exec b sched = Some b' →
  b_outcome b ≠ Pending → b_outcome b' = b_outcome b.
Proof.
  revert b. induction sched as [|e sched IH]; intros b Hmode.
  - by intros [= <-].
  - simpl. destruct (step b e) as [b1|] eqn:Hstep; [|done].
    destruct (seq_step_outcome _ _ _ Hmode Hstep) as [Hm Ho].
    intros Hex Hset. rewrite <- (Ho Hset). apply IH; [done..|].
    by rewrite (Ho Hset).
Qed.

Lemma first_completion_app (i : nat) (sched sched' : list (nat * ChildEvent))
    (v : JsVal) :
  first_completion i sched = Some v →
  first_completion i (sched ++ sched') = Some v.
Proof.
  unfold first_completion. rewrite omap_app.
  by destruct (omap (completion_of i) sched).
Qed.

(** X14. The batch promise settles once.  When the promise of a batch is
    fulfilled or rejected after some schedule, it has the same state and the
    same value after any continuation of that schedule: events that arrive
    late (output of a child after another has failed the batch, a closure
    after an error) do not change the result. *)
Theorem outcome_settles_once (input options : JsVal) (commands : list JsVal)
    (sched sched' : list (nat * ChildEvent)) (b b' : Batch) :
  normalize input = Some commands →
  exec (runMultiple input options) sched = Some b →
  exec b sched' = Some b' →
  b_outcome b ≠ Pending →
  b_outcome b' = b_outcome b.
Proof.
  intros Hn Hex Hex' Hset.
  assert (exec (runMultiple input options) (sched ++ sched') = Some b') as Hall
    by (by rewrite exec_app, Hex).
  pose proof (reachable_inv _ _ _ _ _ Hn Hex) as Hinv.
  pose proof (reachable_inv _ _ _ _ _ Hn Hall) as Hinv'.
  destruct (select_mode (globalOpts options)).
  - destruct Hinv as (Hmode & _). by eapply seq_exec_outcome.
  - destruct (b_outcome b) as [|rs|e] eqn:Hout; [done| |].
    + apply (par_outcome_fulfilled _ _ _ _ _ Hinv) in Hout
        as (vs & -> & Hlen & Hvs).
      apply (par_outcome_fulfilled _ _ _ _ _ Hinv'). exists vs.
      split_and!; [done..|]. intros i cmd Hi.
      destruct (Hvs i cmd Hi) as [Hwf Hfc]. split; [done|].
      destruct (lookup_lt_is_Some_2 vs i) as [v Hv];
        [apply lookup_lt_Some in Hi; lia|].
      rewrite Hv in Hfc |- *. by apply first_completion_app.
    + pose proof Hinv as (_ & (_ & _ & Hprocs & _) & Hlen & Hpa).
      pose proof Hinv' as (_ & (_ & _ & Hprocs' & _) & Hlen' & Hpa').
      rewrite Hlen, firstn_all in Hprocs. rewrite Hlen', firstn_all in Hprocs'.
      rewrite Hpa', Hprocs'. rewrite Hpa, Hprocs in Hout.
      apply promise_all_rejection. rewrite first_rejection_procs.
      rewrite <- (first_rejection_procs _ sched).
      unfold promise_all in Hout.
      destruct (first_rejection _) as [e'|]; [congruence|].
      by destruct (all_values _).
Qed.

(** ** Edge behaviour of one call of [run] *)

(** X15. What a failing call of [run] does.  When the options are not well
    formed the promise is rejected with a [TypeError] and nothing is
    spawned; the only effect, if any, is the verbose line: with [verbose]
    set and a logger that is a function, the command is logged, prefixed,
    before the failure; otherwise nothing is done at all. *)
Theorem failing_run_effects (o : Obj) :
  ¬ well_formed o →
  run o =
    ((if js_truthy (get o "verbose") && is_function (get o "logger")
      then [Call (get o "logger")
                 [VStr ("$ " +:+ js_to_string (get o "command"))]]
      else []),
     Rejected TypeError).
Proof.
  intros Hwf. rewrite run_cases. unfold logged.
  destruct (js_truthy (get o "verbose")) eqn:Hv,
    (is_function (get o "logger")) eqn:Hl; simpl; try done;
    destruct (get o "command") as [| | | |s| | | |] eqn:Hcmd; try done;
    destruct (tokenize s) as [[file args]|] eqn:Htok; try done;
    destruct Hwf; (split; [by rewrite Hv|by exists s, file, args]).
Qed.

(** X16. [onDone] is called for every completion event, not only for the
    first.  When [onDone] is a function and a child reports several
    completions (an error followed by a closure, as the host does for an
    executable that is not found), the listeners call [onDone] once per
    event, with the flag [true] for the errors, while the promise keeps the
    payload of the first. *)
Theorem onDone_every_completion (o : Obj) (evs : list ChildEvent) :
  is_function (get o "onDone") = true →
  Forall (λ ev, is_Some (completion ev)) evs →
  (listen o Pending evs).1 = done_calls o evs
  ∧ length (listen o Pending evs).1 = length evs
  ∧ (listen o Pending evs).2
    = match evs with
      | [] => Pending
      | ev :: _ => Fulfilled (default VUndefined (completion ev))
      end.
Proof.
  intros Hdone Hevs.
  assert (∀ p, (listen o p evs).1 = done_calls o evs
               ∧ length (done_calls o evs) = length evs) as Hcalls.
  { induction Hevs as [|ev evs [v Hv] _ IH]; intros p; [done|].
    cbn [listen]. destruct (run_event o p ev) as [l p'] eqn:Hrun.
    destruct (IH p') as [IH1 IH2]. destruct (listen o p' evs) as [l' p''].
    simpl in IH1. subst l'. unfold done_calls in *.
    destruct ev; simplify_eq/=; unfold on_done; rewrite Hdone; simpl;
      by rewrite IH2. }
  destruct (Hcalls Pending) as [Heq Hlen]. split_and!; [done|by rewrite Heq|].
  rewrite listen_promise. destruct Hevs as [|ev evs [v Hv] _]; [done|].
  simpl. by rewrite Hv.
Qed.

Lemma listen_stdout (o : Obj) (p : Promise) (chunks : list string) :
  listen o p (map StdoutData chunks)
  = (concat (map (on_data "onData" o) chunks), p).
Proof.
  induction chunks as [|d chunks IH]; [done|].
  cbn [map listen run_event]. rewrite IH. done.
Qed.

(** X18. A listener that outlives its promise.  When the options are well
    formed and the host gives back a child that has [stdout] but not
    [stderr], the executor throws between the two [data] listeners: the
    promise is rejected with a [TypeError], yet the listener of [stdout] is
    installed, so every chunk the child writes there is still logged and
    handed to [onData], while no other event of the child finds a listener
    and the promise stays rejected. *)
Theorem stdout_listener_outlives_rejection (o : Obj) (s file : string)
    (args : list string) :
  well_formed o →
  get o "command" = VStr s →
  tokenize s = Some (file, args) →
  host_spawn file args (spawnProcessOpts o) = Child true false →
  (run o).2 = Rejected TypeError
  ∧ (∀ chunks,
       run_then o (map StdoutData chunks)
       = Some ((run o).1 ++ concat (map (on_data "onData" o) chunks),
               Rejected TypeError))
  ∧ (∀ evs ev, ev ∈ evs → (∀ d, ev ≠ StdoutData d) → run_then o evs = None).
Proof.
  intros Hwf Hcmd Htok Hhost.
  destruct (run_well_formed o Hwf) as (s' & f' & a' & Hc' & Ht' & Hrun & Hls).
  rewrite Hcmd in Hc'. injection Hc' as <-. rewrite Htok in Ht'.
  injection Ht' as <- <-. rewrite Hhost in Hrun, Hls. cbn in Hrun, Hls.
  split_and!.
  - by rewrite Hrun.
  - intros chunks. unfold run_then. rewrite Hls.
    assert (forallb (delivered StdoutListener) (map StdoutData chunks) = true)
      as -> by (by induction chunks).
    rewrite Hrun, listen_stdout. done.
  - intros evs ev Hin Hev. unfold run_then. rewrite Hls.
    destruct (forallb (delivered StdoutListener) evs) eqn:Hdel; [|done].
    rewrite forallb_forall in Hdel. apply list_elem_of_In in Hin.
    apply Hdel in Hin. destruct ev as [d| | |]; try done. by destruct (Hev d).
Qed.

End Host.

(** * Examples at concrete inputs *)

Example tokenize_echo_quoted : tokenize echo_quoted = Some ("echo", ["a b"]).
Proof. reflexivity. Qed.

Example tokenize_blank : tokenize "   " = None.
Proof. reflexivity. Qed.


(** In parallel mode the second child closes first; the results are still in
    input order. *)
Lemma parallel_dispatch_and_collection_witness :
  ∃ b, exec sample_to_string sample_spawn
         (runMultiple sample_cwd sample_to_string sample_spawn var_and_default tmp_parallel)
         [(1, StdoutData "2"); (1, Close (VNum 2)); (0, StdoutData "1");
          (0, Close (VNum 0))] = Some b
       ∧ b_outcome b = Fulfilled (VArr [VNum 0; VNum 2]).
Proof.
  destruct (exec _ _ _ _) as [b|] eqn:Hex; [|by vm_compute in Hex].
  exists b. split; [reflexivity|].
  destruct (parallel_dispatch_and_collection sample_cwd sample_to_string sample_spawn
              var_and_default tmp_parallel
              [VObj {[ "command" := VStr "ls"; "cwd" := VStr "/var" ]};
               wrap (VStr "ls")]
              _ b eq_refl eq_refl Hex) as (_ & _ & _ & Hout).
  apply Hout. exists [VNum 0; VNum 2]. split; [reflexivity|]. split; [reflexivity|].
  clear Hex Hout.
  intros [|[|i]] cmd Hcmd; [| |done]; injection Hcmd as <-; by vm_compute.
Defined.

(** In sequential mode, after the first child has closed and the second has
    written a chunk: two calls of [run], one result. *)
Lemma sequential_dispatch_witness :
  ∃ b, exec sample_to_string sample_spawn
         (runMultiple sample_cwd sample_to_string sample_spawn two_commands VUndefined)
         [(0, StdoutData "1"); (0, Close (VNum 0)); (1, StdoutData "2")] = Some b
       ∧ length (b_procs b) = S (length (b_results b)) `min` 2
       ∧ ∀ i v, b_results b !! i = Some v →
           first_completion i
             [(0, StdoutData "1"); (0, Close (VNum 0)); (1, StdoutData "2")]
           = Some v.
Proof.
  destruct (exec _ _ _ _) as [b|] eqn:Hex; [|by vm_compute in Hex].
  exists b. split; [reflexivity|].
  assert (get (globalOpts sample_cwd VUndefined) "mode" ≠ VStr PARALLEL) as Hmode
    by (by vm_compute).
  destruct (sequential_dispatch sample_cwd sample_to_string sample_spawn two_commands VUndefined
              [wrap (VStr "ls -la"); VObj {[ "command" := VStr "false" ]}]
              _ b eq_refl Hmode Hex) as (Hlen & _ & _ & _ & Hres & _).
  split; [exact Hlen|exact Hres].
Defined.




(** A number is not a valid input: nothing happens. *)
Lemma invalid_input_rejection_witness :
  b_outcome (runMultiple sample_cwd sample_to_string sample_spawn (VNum 6) VUndefined)
  = Rejected (VStr "Invalid input")
  ∧ b_trace (runMultiple sample_cwd sample_to_string sample_spawn (VNum 6) VUndefined) = [].
Proof.
  destruct (invalid_input_rejection sample_cwd sample_to_string sample_spawn (VNum 6) VUndefined)
    as (Hshape & Hout & Hnone & _ & _).
  split.
  - apply Hout, Hshape. exact I.
  - apply Hnone, Hshape. exact I.
Defined.

(** The misspelt mode [Parallel] runs the commands in sequence. *)
Lemma mode_selection_witness :
  runMultiple sample_cwd sample_to_string sample_spawn two_commands
    (VObj {[ "mode" := VStr "Parallel" ]})
  = seq_start sample_to_string sample_spawn
      (globalOpts sample_cwd (VObj {[ "mode" := VStr "Parallel" ]}))
      [wrap (VStr "ls -la"); VObj {[ "command" := VStr "false" ]}].
Proof.
  destruct (mode_selection sample_cwd sample_to_string sample_spawn two_commands
              (VObj {[ "mode" := VStr "Parallel" ]})) as [_ Hseq].
  rewrite Hseq; [reflexivity|]. by vm_compute.
Defined.

(** * Where the code departs from the specification *)



(** C7 (counterexample).  The empty command string has no token, and the
    batch is not rejected with [Invalid input]: it is rejected with the
    [TypeError] thrown inside [run]. *)
Lemma empty_command_is_not_invalid_input :
  b_outcome (runMultiple sample_cwd sample_to_string sample_spawn (VStr EmptyString) VUndefined)
    = Rejected TypeError
  ∧ b_outcome (runMultiple sample_cwd sample_to_string sample_spawn (VStr EmptyString) VUndefined)
    ≠ Rejected (VStr "Invalid input").
Proof. split; by vm_compute. Qed.


(** The sequential test of the suite: the slow script prints and closes
    before the echo exists, so the output is recorded as 1, 2. *)
Example sequential_output_order :
  (λ b, (calls (b_trace b), b_outcome b)) <$>
    exec sample_to_string sample_spawn
      (runMultiple sample_cwd sample_to_string sample_spawn slow_then_fast VUndefined)
      [(0, StdoutData "1"); (0, Close (VNum 0));
       (1, StdoutData "2"); (1, Close (VNum 0))]
  = Some ([Call (VFun "push") [VStr "1"]; Call (VFun "push") [VStr "2"]],
          Fulfilled (VArr [VNum 0; VNum 0])).
Proof. by vm_compute. Qed.

(** In sequential mode the second child cannot write before the first has
    completed: it has not been spawned. *)
Example sequential_second_child_waits :
  exec sample_to_string sample_spawn
    (runMultiple sample_cwd sample_to_string sample_spawn slow_then_fast VUndefined)
    [(1, StdoutData "2")] = None.
Proof. by vm_compute. Qed.

(** The parallel test of the suite: the echo prints first, the output is
    recorded as 2, 1, and the exit codes are still in input order. *)
Example parallel_output_order :
  (λ b, (calls (b_trace b), b_outcome b)) <$>
    exec sample_to_string sample_spawn
      (runMultiple sample_cwd sample_to_string sample_spawn slow_then_fast
         (VObj {[ "mode" := VStr "parallel" ]}))
      [(1, StdoutData "2"); (1, Close (VNum 7));
       (0, StdoutData "1"); (0, Close (VNum 0))]
  = Some ([Call (VFun "push") [VStr "2"]; Call (VFun "push") [VStr "1"]],
          Fulfilled (VArr [VNum 0; VNum 7])).
Proof. by vm_compute. Qed.

(** A zero-token command in a parallel batch rejects the batch, and its
    sibling is spawned all the same. *)
Example parallel_blank_command :
  (λ b, (spawns (b_trace b), b_outcome b))
    (runMultiple sample_cwd sample_to_string sample_spawn (VArr [VStr " "; VStr "ls"])
       (VObj {[ "mode" := VStr "parallel" ]}))
  = ([Spawn "ls" [] {[ "cwd" := VStr sample_cwd ]}], Rejected TypeError).
Proof. by vm_compute. Qed.

(** In a parallel batch the first rejection wins: here the host refuses the
    first command, and the batch is rejected with the error of the host,
    not with the [TypeError] of the blank command after it. *)
Example parallel_first_rejection_wins :
  (λ b, (map p_promise (b_procs b), b_outcome b))
    (runMultiple sample_cwd sample_to_string unprivileged_spawn
       (VArr [VObj {[ "command" := VStr "id"; "uid" := VNum 0 ]}; VStr " "])
       (VObj {[ "mode" := VStr "parallel" ]}))
  = ([Rejected (VError "Error"); Rejected TypeError], Rejected (VError "Error")).
Proof. by vm_compute. Qed.

(** A working directory that is not a string: [spawn] is called and throws,
    no event can follow. *)
Example spawn_throws :
  run sample_to_string sample_spawn {[ "command" := VStr "ls"; "cwd" := VNum 5 ]}
  = ([Spawn "ls" [] {[ "cwd" := VNum 5 ]}], Rejected TypeError)
  ∧ ∀ ev, run_then sample_to_string sample_spawn
            {[ "command" := VStr "ls"; "cwd" := VNum 5 ]} [ev] = None.
Proof. split; [by vm_compute|]. intros ev. by vm_compute. Qed.

(** With [stdio: 'inherit'] the process is spawned, and the promise is
    rejected for want of a [stdout] to listen to. *)
Example inherited_stdio :
  run sample_to_string sample_spawn
      {[ "command" := VStr "ls"; "stdio" := VStr "inherit" ]}
  = ([Spawn "ls" [] {[ "stdio" := VStr "inherit" ]}], Rejected TypeError).
Proof. by vm_compute. Qed.

(** The two quotes of a span are not separators: the words between them do
    not make a segmentation of the line. *)
Example quoted_span_is_one_token :
  ¬ Lexes (list_ascii_of_string echo_quoted)
          (map list_ascii_of_string ["echo"; "a"; "b"]).
Proof. intros H%Lexes_scan. by vm_compute in H. Qed.

(** An escaped quote stays in its span, with its backslash. *)
Example tokenize_escaped_quote :
  tokenize ("say " +:+ String dquote ("a" +:+ String backslash (String dquote "b"))
              +:+ String dquote EmptyString)
  = Some ("say", ["a" +:+ String backslash (String dquote "b")]).
Proof. by vm_compute. Qed.

(** An empty pair of quotes yields no token. *)
Example tokenize_empty_quotes :
  tokenize ("echo " +:+ String dquote (String dquote EmptyString))
  = Some ("echo", []).
Proof. by vm_compute. Qed.

(** * The further properties at concrete inputs *)

Lemma unquoted_command_words_witness :
  scan 0 (list_ascii_of_string "ls  -la /tmp")
  = map list_ascii_of_string ["ls"; "-la"; "/tmp"]
  ∧ tokenize "ls  -la /tmp" = Some ("ls", ["-la"; "/tmp"]).
Proof.
  destruct (unquoted_command_words "ls  -la /tmp") as (Hwords & _ & _ & _ & Htok).
  - repeat (apply List.Forall_cons; [reflexivity|]). apply List.Forall_nil.
  - split; [rewrite Hwords|rewrite Htok]; reflexivity.
Defined.

Lemma tokenize_defined_witness :
  is_Some (tokenize " a") ∧ tokenize "   " = None.
Proof.
  split.
  - apply (proj1 (tokenize_defined " a")).
    apply List.Exists_cons_tl, List.Exists_cons_hd. reflexivity.
  - apply (proj2 (tokenize_defined "   ")).
    repeat (apply List.Forall_cons; [reflexivity|]). apply List.Forall_nil.
Defined.

Lemma tokens_nonempty_witness :
  "echo" ≠ EmptyString ∧ Forall (λ a : string, a ≠ EmptyString) ["a b"].
Proof. exact (tokens_nonempty echo_quoted "echo" ["a b"] eq_refl). Defined.

Lemma command_line_round_trip_witness :
  tokenize (string_of_list_ascii
              (command_line (list_ascii_of_string "grep")
                 [list_ascii_of_string "-n"; list_ascii_of_string "a b"]))
  = Some ("grep", ["-n"; "a b"]).
Proof.
  apply (command_line_round_trip (list_ascii_of_string "grep")
           [list_ascii_of_string "-n"; list_ascii_of_string "a b"]).
  - split; [discriminate|].
    repeat (apply List.Forall_cons; [reflexivity|]). apply List.Forall_nil.
  - repeat (apply List.Forall_cons;
            [split; [discriminate|split; [|discriminate]];
             repeat (apply List.Forall_cons; [reflexivity|]); apply List.Forall_nil|]).
    apply List.Forall_nil.
Defined.

Lemma run_spawns_once_witness :
  spawns (run sample_to_string sample_spawn verbose_ls).1
  = [Spawn "ls" ["-la"] (spawnProcessOpts verbose_ls)].
Proof.
  destruct (run_spawns_once sample_to_string sample_spawn verbose_ls) as [Hwf _].
  destruct Hwf as (s & file & args & Hcmd & Htok & Hsp & _).
  - apply (proj2 (well_formed_spawns sample_to_string sample_spawn _)).
    by vm_compute.
  - vm_compute in Hcmd. injection Hcmd as <-.
    vm_compute in Htok. injection Htok as <- <-. exact Hsp.
Defined.

Lemma trace_provenance_witness :
  ∃ b, exec sample_to_string sample_spawn
         (runMultiple sample_cwd sample_to_string sample_spawn slow_then_fast VUndefined)
         [(0, StdoutData "1"); (0, Close (VNum 0)); (1, StdoutData "2")] = Some b
       ∧ Forall (λ e, ∃ cmd,
                   cmd ∈ map j_cmd sample_jobs
                   ∧ effect_from
                       (resolvedOpts (globalOpts sample_cwd VUndefined) cmd) e)
                (b_trace b).
Proof.
  destruct (exec _ _ _ _) as [b|] eqn:Hex; [|by vm_compute in Hex].
  exists b. split; [reflexivity|].
  exact (trace_provenance sample_cwd sample_to_string sample_spawn slow_then_fast VUndefined
           (map j_cmd sample_jobs) _ b eq_refl Hex).
Defined.

Lemma quiet_batch_calls_nothing_witness :
  ∃ b, exec sample_to_string sample_spawn
         (runMultiple sample_cwd sample_to_string sample_spawn two_commands VUndefined)
         [(0, StdoutData "1"); (0, Close (VNum 0)); (1, StderrData "2")] = Some b
       ∧ calls (b_trace b) = [].
Proof.
  assert (Forall (λ cmd, quiet (resolvedOpts (globalOpts sample_cwd VUndefined) cmd))
            [wrap (VStr "ls -la"); VObj {[ "command" := VStr "false" ]}]) as Hquiet.
  { repeat (apply List.Forall_cons; [by vm_compute|]). apply List.Forall_nil. }
  destruct (exec _ _ _ _) as [b|] eqn:Hex; [|by vm_compute in Hex].
  exists b. split; [reflexivity|].
  exact (proj1 (quiet_batch_calls_nothing sample_cwd sample_to_string sample_spawn
                  two_commands VUndefined
                  [wrap (VStr "ls -la"); VObj {[ "command" := VStr "false" ]}]
                  [(0, StdoutData "1"); (0, Close (VNum 0)); (1, StderrData "2")]
                  b eq_refl Hquiet Hex)).
Defined.

Lemma parallel_trace_witness :
  ∃ b, exec sample_to_string sample_spawn
         (runMultiple sample_cwd sample_to_string sample_spawn slow_then_fast
            (VObj {[ "mode" := VStr "parallel" ]}))
         [(1, StdoutData "2"); (0, StdoutData "1")] = Some b
       ∧ calls (b_trace b)
         = [Call (VFun "push") [VStr "2"]; Call (VFun "push") [VStr "1"]].
Proof.
  destruct (exec _ _ _ _) as [b|] eqn:Hex; [|by vm_compute in Hex].
  exists b. split; [reflexivity|].
  assert (get (globalOpts sample_cwd (VObj {[ "mode" := VStr "parallel" ]})) "mode"
          = VStr PARALLEL) as Hmode by (by vm_compute).
  rewrite (parallel_trace sample_cwd sample_to_string sample_spawn slow_then_fast
             (VObj {[ "mode" := VStr "parallel" ]}) (map j_cmd sample_jobs)
             _ b eq_refl Hmode Hex).
  by vm_compute.
Defined.

Lemma sequential_composition_witness :
  ∃ b, exec sample_to_string sample_spawn
         (runMultiple sample_cwd sample_to_string sample_spawn slow_then_fast VUndefined)
         (in_turn 0 sample_jobs) = Some b
       ∧ b_outcome b = Fulfilled (VArr [VNum 0; VNum 0]).
Proof.
  destruct (sequential_composition sample_cwd sample_to_string sample_spawn slow_then_fast
              VUndefined sample_jobs eq_refl) as (b & Hex & _ & Hout).
  - by vm_compute.
  - repeat (apply List.Forall_cons;
            [split; [apply (proj1 (run_pending_iff sample_to_string sample_spawn _)); by vm_compute|];
             split; [by repeat constructor|by eexists]|]).
    apply List.Forall_nil.
  - exists b. by split.
Defined.

Lemma sequential_stops_at_malformed_witness :
  ∃ b, exec sample_to_string sample_spawn
         (runMultiple sample_cwd sample_to_string sample_spawn blank_in_the_middle VUndefined)
         [(0, Close (VNum 0))] = Some b
       ∧ length (b_procs b) ≤ 2
       ∧ b_outcome b = Rejected TypeError.
Proof.
  destruct (exec _ _ _ _) as [b|] eqn:Hex; [|by vm_compute in Hex].
  exists b. split; [reflexivity|].
  assert (length (b_results b) = 1) as Hres.
  { assert (length ∘ b_results <$>
              exec sample_to_string sample_spawn
                (runMultiple sample_cwd sample_to_string sample_spawn blank_in_the_middle VUndefined)
                [(0, Close (VNum 0))] = Some 1) as Hlen by (by vm_compute).
    rewrite Hex in Hlen. by injection Hlen. }
  destruct (sequential_stops_at_malformed sample_cwd sample_to_string sample_spawn
              blank_in_the_middle VUndefined
              [wrap (VStr "ls"); wrap (VStr " "); wrap (VStr "x")]
              [(0, Close (VNum 0))] b 1 (wrap (VStr " ")) eq_refl)
    as (Hprocs & _ & _ & Hout); [by vm_compute|reflexivity| |exact Hex|].
  - intros Hwf%(proj1 (well_formed_spawns sample_to_string sample_spawn _)).
    by apply Hwf.
  - split; [exact Hprocs|exact (Hout Hres)].
Defined.

Lemma parallel_rejects_at_once_witness :
  ∃ b, exec sample_to_string sample_spawn
         (runMultiple sample_cwd sample_to_string sample_spawn blank_in_the_middle
            (VObj {[ "mode" := VStr "parallel" ]}))
         [(2, Close (VNum 0)); (0, Close (VNum 0))] = Some b
       ∧ b_outcome b = Rejected TypeError.
Proof.
  assert (get (globalOpts sample_cwd (VObj {[ "mode" := VStr "parallel" ]})) "mode"
          = VStr PARALLEL) as Hmode by (by vm_compute).
  assert ((run sample_to_string sample_spawn
             (resolvedOpts (globalOpts sample_cwd (VObj {[ "mode" := VStr "parallel" ]}))
                (wrap (VStr " ")))).2 = Rejected TypeError) as Hrej
    by (by vm_compute).
  assert (∀ i c, i < 1 →
            [wrap (VStr "ls"); wrap (VStr " "); wrap (VStr "x")] !! i = Some c →
            (run sample_to_string sample_spawn
               (resolvedOpts (globalOpts sample_cwd (VObj {[ "mode" := VStr "parallel" ]}))
                  c)).2 = Pending) as Hbefore.
  { intros [|i] c Hi Hc; [|lia]. injection Hc as <-. by vm_compute. }
  destruct (exec _ _ _ _) as [b|] eqn:Hex; [|by vm_compute in Hex].
  exists b. split; [reflexivity|].
  destruct (parallel_rejects_at_once sample_cwd sample_to_string sample_spawn
              blank_in_the_middle (VObj {[ "mode" := VStr "parallel" ]})
              [wrap (VStr "ls"); wrap (VStr " "); wrap (VStr "x")]
              [(2, Close (VNum 0)); (0, Close (VNum 0))] b 1 (wrap (VStr " "))
              TypeError eq_refl Hmode eq_refl Hrej Hex)
    as (_ & Hout & _).
  exact (Hout Hbefore).
Defined.

Lemma normalize_idempotent_witness :
  runMultiple sample_cwd sample_to_string sample_spawn (VStr "ls") VUndefined
  = runMultiple sample_cwd sample_to_string sample_spawn (VArr [wrap (VStr "ls")]) VUndefined.
Proof.
  exact (proj2 (proj2 (normalize_idempotent sample_cwd sample_to_string sample_spawn (VStr "ls")
                         VUndefined [wrap (VStr "ls")] eq_refl))).
Defined.

Lemma outcome_settles_once_witness :
  ∃ b b',
    exec sample_to_string sample_spawn
      (runMultiple sample_cwd sample_to_string sample_spawn two_commands
         (VObj {[ "mode" := VStr "parallel" ]}))
      [(0, Close (VNum 0)); (1, Error (VError "ENOENT"))] = Some b
    ∧ exec sample_to_string sample_spawn b [(1, Close (VNum 1)); (0, StdoutData "late")] = Some b'
    ∧ b_outcome b' = b_outcome b.
Proof.
  destruct (exec _ _ (runMultiple _ _ _ _ _) _) as [b|] eqn:Hex; [|by vm_compute in Hex].
  assert (b_outcome <$>
            exec sample_to_string sample_spawn
              (runMultiple sample_cwd sample_to_string sample_spawn two_commands
                 (VObj {[ "mode" := VStr "parallel" ]}))
              [(0, Close (VNum 0)); (1, Error (VError "ENOENT"))]
          = Some (Fulfilled (VArr [VNum 0; VError "ENOENT"]))) as Hout
    by (by vm_compute).
  rewrite Hex in Hout. injection Hout as Hout.
  assert (is_Some (exec sample_to_string sample_spawn b [(1, Close (VNum 1)); (0, StdoutData "late")]))
    as [b' Hex'].
  { assert (is_Some
              (exec sample_to_string sample_spawn
                 (runMultiple sample_cwd sample_to_string sample_spawn two_commands
                    (VObj {[ "mode" := VStr "parallel" ]}))
                 ([(0, Close (VNum 0)); (1, Error (VError "ENOENT"))]
                  ++ [(1, Close (VNum 1)); (0, StdoutData "late")]))) as Hsome
      by (vm_compute; by eexists).
    by rewrite exec_app, Hex in Hsome. }
  exists b, b'. split; [reflexivity|]. split; [exact Hex'|].
  apply (outcome_settles_once sample_cwd sample_to_string sample_spawn two_commands
           (VObj {[ "mode" := VStr "parallel" ]})
           [wrap (VStr "ls -la"); VObj {[ "command" := VStr "false" ]}]
           _ _ b b' eq_refl Hex Hex').
  by rewrite Hout.
Defined.

Lemma failing_run_effects_witness :
  run sample_to_string sample_spawn
      {[ "command" := VStr " "; "verbose" := VBool true; "logger" := VFun "log" ]}
  = ([Call (VFun "log") [VStr "$  "]], Rejected TypeError).
Proof.
  rewrite (failing_run_effects sample_to_string sample_spawn
             {[ "command" := VStr " "; "verbose" := VBool true;
                "logger" := VFun "log" ]}); [by vm_compute|].
  intros Hwf%(proj1 (well_formed_spawns sample_to_string sample_spawn _)).
  by apply Hwf.
Defined.

Lemma onDone_every_completion_witness :
  (listen {[ "onDone" := VFun "done" ]} Pending
          [Error (VError "ENOENT"); Close (VNum (-2))]).1
  = [Call (VFun "done") [VError "ENOENT"; VBool true];
     Call (VFun "done") [VNum (-2)]]
  ∧ (listen {[ "onDone" := VFun "done" ]} Pending
            [Error (VError "ENOENT"); Close (VNum (-2))]).2
    = Fulfilled (VError "ENOENT").
Proof.
  assert (is_function (get ({[ "onDone" := VFun "done" ]} : Obj) "onDone") = true)
    as Hdone by (by vm_compute).
  destruct (onDone_every_completion {[ "onDone" := VFun "done" ]}
              [Error (VError "ENOENT"); Close (VNum (-2))] Hdone)
    as (Hcalls & _ & Hpromise).
  - repeat (apply List.Forall_cons; [by eexists|]). apply List.Forall_nil.
  - rewrite Hcalls, Hpromise. split; by vm_compute.
Defined.

Lemma unclosed_quote_is_a_space_witness :
  tokenize (string_of_list_ascii
              (list_ascii_of_string "echo " ++ dquote :: list_ascii_of_string "hello you"))
  = Some ("echo", ["hello"; "you"]).
Proof.
  destruct (unclosed_quote_is_a_space (list_ascii_of_string "echo ")
              (list_ascii_of_string "hello you")) as [_ Htok].
  - repeat (apply List.Forall_cons; [reflexivity|]). apply List.Forall_nil.
  - repeat (apply List.Forall_cons; [reflexivity|]). apply List.Forall_nil.
  - rewrite Htok. reflexivity.
Defined.

Lemma stdout_listener_outlives_rejection_witness :
  run_then sample_to_string sample_spawn no_stderr [StdoutData "a"; StdoutData "b"]
  = Some ([Spawn "ls" [] (spawnProcessOpts no_stderr);
           Call (VFun "out") [VStr "a"]; Call (VFun "out") [VStr "b"]],
          Rejected TypeError)
  ∧ run_then sample_to_string sample_spawn no_stderr [StdoutData "a"; Close (VNum 0)]
    = None.
Proof.
  assert (well_formed no_stderr) as Hwf.
  { apply (proj2 (well_formed_spawns sample_to_string sample_spawn _)).
    by vm_compute. }
  assert (sample_spawn "ls" [] (spawnProcessOpts no_stderr) = Child true false)
    as Hhost by (by vm_compute).
  destruct (stdout_listener_outlives_rejection sample_to_string sample_spawn
              no_stderr "ls" "ls" [] Hwf eq_refl eq_refl Hhost)
    as (_ & Hchunks & Hother).
  split.
  - change [StdoutData "a"; StdoutData "b"] with (map StdoutData ["a"; "b"]).
    rewrite (Hchunks ["a"; "b"]). by vm_compute.
  - apply (Hother _ (Close (VNum 0))); [|done].
    apply list_elem_of_In. right. left. reflexivity.
Defined.
